(** * emailparser-dbs: the extraction routines of [src/index.ts]

    A shallow embedding of [parseTransactionDetails], [parseForwardedMail],
    the local helper [clean] and [escapeMarkdown], together with the part of
    the ECMAScript regular-expression semantics these functions rely on
    ([String.prototype.match] on a non-global pattern,
    [String.prototype.replace] on a global pattern, [String.prototype.trim]). *)

From Stdlib Require Import List Arith Wf_nat NArith Bool Lia String Ascii.
Import ListNotations.
Local Open Scope N_scope.
Local Open Scope list_scope.

(** ** Strings

    A JavaScript string is a sequence of UTF-16 code units. *)

Definition jsstring := list N.

Definition str (s : string) : jsstring :=
  map N_of_ascii (list_ascii_of_string s).

Definition LF : N := 10.
Definition CR : N := 13.

(** [LineTerminator] and [WhiteSpace] of the ECMAScript grammar; [\s] and
    [trim] use their union. *)
Definition isLineTerminator (c : N) : bool :=
  (c =? 10) || (c =? 13) || (c =? 8232) || (c =? 8233).

Definition isWhiteSpace (c : N) : bool :=
  (c =? 9) || (c =? 11) || (c =? 12) || (c =? 32) || (c =? 160)
  || (c =? 5760) || ((8192 <=? c) && (c <=? 8202))
  || (c =? 8239) || (c =? 8287) || (c =? 12288) || (c =? 65279).

Definition isSpace (c : N) : bool := isWhiteSpace c || isLineTerminator c.

Definition isDigit (c : N) : bool := (48 <=? c) && (c <=? 57).

(** [Canonicalize] under the [i] flag.  Every pattern character of this
    program is ASCII, and ECMAScript never folds a code unit of 128 or more
    onto an ASCII one, so folding the ASCII letters is all that can make a
    pattern character match. *)
Definition canonicalize (c : N) : N :=
  if (97 <=? c) && (c <=? 122) then c - 32 else c.

(** [String.prototype.trim]. *)
Fixpoint trimStart (s : jsstring) : jsstring :=
  match s with
  | c :: s' => if isSpace c then trimStart s' else s
  | [] => []
  end.

Definition trimEnd (s : jsstring) : jsstring := rev (trimStart (rev s)).

Definition trim (s : jsstring) : jsstring := trimEnd (trimStart s).

(** Truthiness of a string: the empty string is the only falsy one. *)
Definition truthy (s : jsstring) : bool :=
  match s with [] => false | _ :: _ => true end.

(** ** Regular expressions *)

(** Single-character atoms. *)
Inductive cclass : Type :=
| CLit (c : N)                (* a pattern character *)
| CDot                        (* [.] *)
| CSpace                      (* [\s] *)
| CDigit                      (* [\d] *)
| CRange (lo hi : N)          (* [a-z] inside a class *)
| CUnion (a b : cclass)       (* juxtaposition inside [[...]] *)
| CNot (a : cclass).          (* [[^...]] *)

(** The patterns carrying the [i] flag use literals, [.], [\s] and [\d]
    only; ranges and negated classes occur in case-sensitive patterns. *)
Fixpoint cmatch (ci : bool) (k : cclass) (ch : N) : bool :=
  match k with
  | CLit c => if ci then canonicalize c =? canonicalize ch else c =? ch
  | CDot => negb (isLineTerminator ch)
  | CSpace => isSpace ch
  | CDigit => isDigit ch
  | CRange lo hi => (lo <=? ch) && (ch <=? hi)
  | CUnion a b => cmatch ci a ch || cmatch ci b ch
  | CNot a => negb (cmatch ci a ch)
  end.

(** Every quantified atom of the program's patterns is a single-character
    class, except [(?:&nbsp;)?]; [Star] is therefore over a class, and [?],
    [+], [{n}] and [{n,}] are the derived forms below. *)
Inductive regex : Type :=
| Empty
| Char (k : cclass)
| Seq (r1 r2 : regex)
| Alt (r1 r2 : regex)
| Star (greedy : bool) (k : cclass)
| Group (r : regex)           (* capture group 1 *)
| Eoi.                        (* [$] without the [m] flag *)

(** [r?], [k+], [k{2,}] and [k{4}], all greedy. *)
Definition Opt (r : regex) : regex := Alt r Empty.
Definition Plus (k : cclass) : regex := Seq (Char k) (Star true k).
Definition AtLeast2 (k : cclass) : regex := Seq (Char k) (Plus k).
Definition Times4 (k : cclass) : regex :=
  Seq (Char k) (Seq (Char k) (Seq (Char k) (Char k))).

(** Pattern characters, literal words, sequences, alternatives and
    classes written as lists. *)
Definition chr (a : ascii) : N := N_of_ascii a.
Definition C (a : ascii) : regex := Char (CLit (chr a)).

Fixpoint lits (w : jsstring) : regex :=
  match w with
  | [] => Empty
  | [c] => Char (CLit c)
  | c :: w' => Seq (Char (CLit c)) (lits w')
  end.

Definition lit (s : string) : regex := lits (str s).

Fixpoint seqs (l : list regex) : regex :=
  match l with
  | [] => Empty
  | [r] => r
  | r :: l' => Seq r (seqs l')
  end.

Fixpoint alts (l : list regex) : regex :=
  match l with
  | [] => Empty
  | [r] => r
  | r :: l' => Alt r (alts l')
  end.

Fixpoint cset (l : list cclass) : cclass :=
  match l with
  | [] => CNot (CUnion CDot (CNot CDot))
  | [k] => k
  | k :: l' => CUnion k (cset l')
  end.

(** ** The backtracking matcher

    As in the ECMAScript specification a pattern denotes a matcher taking a
    state and a continuation.  The state holds the input still to be read,
    the code units the current attempt has consumed (latest first) and the
    value of capture group 1. *)

Record mstate : Type := MState {
  rest : jsstring;
  taken : jsstring;
  group1 : option jsstring
}.

Definition cont : Type := mstate -> option mstate.

Definition orElse (a : option mstate) (b : unit -> option mstate) : option mstate :=
  match a with
  | Some y => Some y
  | None => b tt
  end.

Definition step1 (ci : bool) (k : cclass) (kont : cont) (x : mstate) : option mstate :=
  match rest x with
  | ch :: s' =>
      if cmatch ci k ch
      then kont (MState s' (ch :: taken x) (group1 x))
      else None
  | [] => None
  end.

(** Greedy repetition: one more character first, the continuation after. *)
Fixpoint starGreedy (ci : bool) (k : cclass) (kont : cont)
         (s tk : jsstring) (g : option jsstring) : option mstate :=
  match s with
  | ch :: s' =>
      if cmatch ci k ch
      then orElse (starGreedy ci k kont s' (ch :: tk) g)
                  (fun _ => kont (MState s tk g))
      else kont (MState s tk g)
  | [] => kont (MState s tk g)
  end.

(** Lazy repetition: the continuation first, one more character after. *)
Fixpoint starLazy (ci : bool) (k : cclass) (kont : cont)
         (s tk : jsstring) (g : option jsstring) : option mstate :=
  orElse (kont (MState s tk g))
         (fun _ =>
            match s with
            | ch :: s' =>
                if cmatch ci k ch
                then starLazy ci k kont s' (ch :: tk) g
                else None
            | [] => None
            end).

Fixpoint matcher (ci : bool) (r : regex) (kont : cont) (x : mstate) : option mstate :=
  match r with
  | Empty => kont x
  | Char k => step1 ci k kont x
  | Seq r1 r2 => matcher ci r1 (matcher ci r2 kont) x
  | Alt r1 r2 => orElse (matcher ci r1 kont x) (fun _ => matcher ci r2 kont x)
  | Star true k => starGreedy ci k kont (rest x) (taken x) (group1 x)
  | Star false k => starLazy ci k kont (rest x) (taken x) (group1 x)
  | Group r1 =>
      matcher ci r1
        (fun y => kont (MState (rest y) (taken y ++ taken x) (Some (rev (taken y)))))
        (MState (rest x) [] (group1 x))
  | Eoi => match rest x with [] => kont x | _ :: _ => None end
  end.

(** A pattern with its [i] flag. *)
Record RegExp : Type := mkRegExp { source : regex; ignoreCase : bool }.

(** One attempt at the head of [s]. *)
Definition exec_at (re : RegExp) (s : jsstring) : option mstate :=
  matcher (ignoreCase re) (source re) (fun y => Some y) (MState s [] None).

(** [s.match(re)] for a non-global [re]: the attempt is repeated at each
    index from the left; [null] is [None].  No pattern of the program looks
    behind, so an attempt only depends on the input from its index on. *)
Record MatchResult : Type := mkMatch {
  whole : jsstring;                 (* [m[0]] *)
  capture : option jsstring         (* [m[1]], [None] when undefined *)
}.

Fixpoint str_match (re : RegExp) (s : jsstring) : option MatchResult :=
  match exec_at re s with
  | Some y => Some (mkMatch (rev (taken y)) (group1 y))
  | None =>
      match s with
      | [] => None
      | _ :: s' => str_match re s'
      end
  end.

(** The guard [m && m[1]]: a match whose group 1 is a non-empty string. *)
Definition captured (m : option MatchResult) : option jsstring :=
  match m with
  | Some r =>
      match capture r with
      | Some g => if truthy g then Some g else None
      | None => None
      end
  | None => None
  end.

(** Replacement templates: ordinary characters and [$&]. *)
Inductive ritem : Type :=
| RChar (c : N)
| RMatched.

Definition expand (t : list ritem) (matched : jsstring) : jsstring :=
  flat_map (fun i => match i with RChar c => [c] | RMatched => matched end) t.

Definition plain (w : jsstring) : list ritem := map RChar w.

(** [s.replace(re, t)] for a global [re]: matches are found from the left,
    each search resuming where the previous match ended (one code unit
    further after an empty match). *)
Fixpoint replace_loop (fuel : nat) (re : RegExp) (t : list ritem) (s : jsstring) : jsstring :=
  match fuel with
  | O => s
  | S fuel' =>
      match exec_at re s with
      | Some y =>
          match taken y, s with
          | _ :: _, _ => expand t (rev (taken y)) ++ replace_loop fuel' re t (rest y)
          | [], c :: s' => expand t [] ++ c :: replace_loop fuel' re t s'
          | [], [] => expand t []
          end
      | None =>
          match s with
          | [] => []
          | c :: s' => c :: replace_loop fuel' re t s'
          end
      end
  end.

Definition replace_all (re : RegExp) (t : list ritem) (s : jsstring) : jsstring :=
  replace_loop (S (List.length s)) re t s.

(** ** The patterns of [src/index.ts] *)

Definition nbsp : jsstring := str "&nbsp;".

(** [/<[^>]*>/g] *)
Definition tagRe : RegExp :=
  mkRegExp (seqs [C "<"; Star true (CNot (CLit (chr ">"))); C ">"]) false.

(** [/&nbsp;/g] *)
Definition nbspRe : RegExp := mkRegExp (lit "&nbsp;") false.

(** The capture stop [(?:<br|<\/p>|&nbsp;|\n)]. *)
Definition fieldStop : regex :=
  alts [lit "<br"; lit "</p>"; lit "&nbsp;"; Char (CLit LF)].

(** [/4\s*digit\s*Akhir\s*Kartu\s*:\s*(?:&nbsp;)?\s*(\d{4})/i] *)
Definition kartuLabel : regex :=
  seqs [C "4"; Star true CSpace; lit "digit"; Star true CSpace; lit "Akhir";
        Star true CSpace; lit "Kartu"; Star true CSpace; C ":"].

Definition kartuRe : RegExp :=
  mkRegExp (seqs [kartuLabel; Star true CSpace; Opt (lit "&nbsp;");
                  Star true CSpace; Group (Times4 CDigit)]) true.

(** [/Merchant\/ATM\s*:\s*(.*?)(?:<br|<\/p>|&nbsp;|\n)/i] *)
Definition merchantLabel : regex :=
  seqs [lit "Merchant/ATM"; Star true CSpace; C ":"].

Definition merchantRe : RegExp :=
  mkRegExp (seqs [merchantLabel; Star true CSpace; Group (Star false CDot); fieldStop]) true.

(** [/Tanggal\s*Transaksi\s*:\s*(.*?)(?:<br|<\/p>|&nbsp;|\n)/i] *)
Definition tanggalLabel : regex :=
  seqs [lit "Tanggal"; Star true CSpace; lit "Transaksi"; Star true CSpace; C ":"].

Definition tanggalRe : RegExp :=
  mkRegExp (seqs [tanggalLabel; Star true CSpace; Group (Star false CDot); fieldStop]) true.

(** [/Nominal\s*:\s*(.*?)(?:<br|<\/p>|&nbsp;|\n)/i] *)
Definition nominalLabel : regex :=
  seqs [lit "Nominal"; Star true CSpace; C ":"].

Definition nominalRe : RegExp :=
  mkRegExp (seqs [nominalLabel; Star true CSpace; Group (Star false CDot); fieldStop]) true.

(** [/<br\s*\/?>/gi] *)
Definition brRe : RegExp :=
  mkRegExp (seqs [lit "<br"; Star true CSpace; Opt (C "/"); C ">"]) true.

(** The line end [(?:\r?\n|$)]. *)
Definition lineEnd : regex :=
  Alt (Seq (Opt (Char (CLit CR))) (Char (CLit LF))) Eoi.

(** [/(?:Dari|From):\s*(.*?)(?:\r?\n|$)/i] *)
Definition fromLabel : regex := Seq (Alt (lit "Dari") (lit "From")) (C ":").

Definition fromRe : RegExp :=
  mkRegExp (seqs [fromLabel; Star true CSpace; Group (Star false CDot); lineEnd]) true.

(** [/(?:Date|Tanggal|Sent):\s*(.*?)(?:\r?\n|$)/i] *)
Definition dateLabel : regex :=
  Seq (alts [lit "Date"; lit "Tanggal"; lit "Sent"]) (C ":").

Definition dateRe : RegExp :=
  mkRegExp (seqs [dateLabel; Star true CSpace; Group (Star false CDot); lineEnd]) true.

(** [/Subject:\s*(.*?)(?:\r?\n|$)/i] *)
Definition subjectLabel : regex := lit "Subject:".

Definition subjectRe : RegExp :=
  mkRegExp (seqs [subjectLabel; Star true CSpace; Group (Star false CDot); lineEnd]) true.

(** [/([a-zA-Z0-9._%+-]+@[a-zA-Z0-9.-]+\.[a-zA-Z]{2,})/] *)
Definition alnum : list cclass :=
  [CRange (chr "a") (chr "z"); CRange (chr "A") (chr "Z"); CRange (chr "0") (chr "9")].

Definition localClass : cclass :=
  cset (alnum ++ map CLit (str "._%+-")).

Definition domainClass : cclass :=
  cset (alnum ++ map CLit (str ".-")).

Definition letterClass : cclass :=
  cset [CRange (chr "a") (chr "z"); CRange (chr "A") (chr "Z")].

Definition emailRe : RegExp :=
  mkRegExp (Group (seqs [Plus localClass; C "@"; Plus domainClass; C ".";
                         AtLeast2 letterClass])) false.

(** [/\s+/g], [/&lt;/g], [/&gt;/g], [/&amp;/g] *)
Definition spacesRe : RegExp := mkRegExp (Plus CSpace) false.
Definition ltRe : RegExp := mkRegExp (lit "&lt;") false.
Definition gtRe : RegExp := mkRegExp (lit "&gt;") false.
Definition ampRe : RegExp := mkRegExp (lit "&amp;") false.

(** [/[_*`\[]/g] *)
Definition specialClass : cclass := cset (map CLit (str "_*`[")).
Definition specialRe : RegExp := mkRegExp (Char specialClass) false.

(** ** The functions of [src/index.ts] *)

Definition NA : jsstring := str "N/A".

(** The helper [clean] of [parseTransactionDetails]. *)
Definition clean (text : jsstring) : jsstring :=
  trim (replace_all nbspRe (plain (str " ")) (replace_all tagRe (plain []) text)).

Record TransactionDetails : Type := mkTransactionDetails {
  akhirKartu : jsstring;
  merchant : jsstring;
  tanggalTransaksi : jsstring;
  nominal : jsstring
}.

(** A field of [parseTransactionDetails]: the default unless the pattern
    matches with a truthy group 1, which is then cleaned. *)
Definition field (re : RegExp) (html : jsstring) : jsstring :=
  match captured (str_match re html) with
  | Some g => clean g
  | None => NA
  end.

Definition parseTransactionDetails (html : jsstring) : TransactionDetails :=
  if negb (truthy html) then mkTransactionDetails NA NA NA NA
  else mkTransactionDetails (field kartuRe html) (field merchantRe html)
                            (field tanggalRe html) (field nominalRe html).

Record ForwardedMail : Type := mkForwardedMail {
  from : option jsstring;
  subject : option jsstring;
  date : option jsstring
}.

Definition normalize (content : jsstring) : jsstring :=
  replace_all brRe (plain [LF]) content.

(** The value built from the raw sender text. *)
Definition senderOf (rawFrom : jsstring) : jsstring :=
  match str_match emailRe rawFrom with
  | Some emailMatch =>
      match capture emailMatch with Some e => e | None => [] end
  | None =>
      let f := trim (replace_all spacesRe (plain (str " "))
                       (replace_all tagRe (plain (str " ")) rawFrom)) in
      replace_all ampRe (plain (str "&"))
        (replace_all gtRe (plain (str ">"))
           (replace_all ltRe (plain (str "<")) f))
  end.

Definition stripTrim (raw : jsstring) : jsstring :=
  trim (replace_all tagRe (plain []) raw).

Definition parseForwardedMail (content : jsstring) : ForwardedMail :=
  let normalized := normalize content in
  mkForwardedMail
    (option_map senderOf (captured (str_match fromRe normalized)))
    (option_map stripTrim (captured (str_match subjectRe normalized)))
    (option_map stripTrim (captured (str_match dateRe normalized))).

Definition escapeMarkdown (text : jsstring) : jsstring :=
  if negb (truthy text) then []
  else replace_all specialRe [RChar (chr "\"); RMatched] text.

(** * Notions used in the statements and proofs *)

(** A declarative reading of the patterns: [lang ci r w a g g'] says that
    [r] can consume the word [w] when [a] follows it, turning the value [g]
    of group 1 into [g']. *)
Inductive lang (ci : bool) : regex -> jsstring -> jsstring ->
                              option jsstring -> option jsstring -> Prop :=
| L_Empty a g : lang ci Empty [] a g g
| L_Char k ch a g : cmatch ci k ch = true -> lang ci (Char k) [ch] a g g
| L_Seq r1 r2 w1 w2 a g g1 g2 :
    lang ci r1 w1 (w2 ++ a) g g1 -> lang ci r2 w2 a g1 g2 ->
    lang ci (Seq r1 r2) (w1 ++ w2) a g g2
| L_AltL r1 r2 w a g g' : lang ci r1 w a g g' -> lang ci (Alt r1 r2) w a g g'
| L_AltR r1 r2 w a g g' : lang ci r2 w a g g' -> lang ci (Alt r1 r2) w a g g'
| L_Star gr k w a g :
    Forall (fun ch => cmatch ci k ch = true) w -> lang ci (Star gr k) w a g g
| L_Group r w a g g' : lang ci r w a g g' -> lang ci (Group r) w a g (Some w)
| L_Eoi g : lang ci Eoi [] [] g g.

Create HintDb re.
#[local] Hint Constructors lang : re.

(** [suffix u s]: [u] is what remains of [s] from some index on. *)
Definition suffix (u s : jsstring) : Prop := exists pre, s = pre ++ u.

(** The pattern never matches the empty word. *)
Definition nonempty_matches (re : RegExp) : Prop :=
  forall s y, exec_at re s = Some y -> taken y <> [].

(** A pattern that has to read a character matches no empty word. *)
Fixpoint consumes (r : regex) : bool :=
  match r with
  | Char _ => true
  | Seq r1 r2 => consumes r1 || consumes r2
  | Alt r1 r2 => consumes r1 && consumes r2
  | Group r1 => consumes r1
  | Empty | Star _ _ | Eoi => false
  end.

(** What follows the word [w] at the head of [s]. *)
Fixpoint startsWith (w s : jsstring) : option jsstring :=
  match w with
  | [] => Some s
  | c :: w' =>
      match s with
      | d :: s' => if c =? d then startsWith w' s' else None
      | [] => None
      end
  end.

Definition lt_ : N := chr "<".
Definition gt_ : N := chr ">".

(** What follows the first [>]. *)
Fixpoint afterGt (s : jsstring) : option jsstring :=
  match s with
  | [] => None
  | c :: s' => if c =? gt_ then Some s' else afterGt s'
  end.

(** What follows a tag at the head of [s]. *)
Definition tagAt (s : jsstring) : option jsstring :=
  match s with
  | c :: s' => if c =? lt_ then afterGt s' else None
  | [] => None
  end.

(** ** The specification's reading of [clean] and of the escaping

    These definitions follow the words of the specification, not the code:
    a tag is what lies between a [<] and the first [>] after it, [&nbsp;]
    is the only entity decoded, and escaping goes character by character. *)

Definition hasGt (s : jsstring) : bool := existsb (fun c => c =? gt_) s.

Fixpoint strip_from (inTag : bool) (s : jsstring) : jsstring :=
  match s with
  | [] => []
  | c :: s' =>
      if inTag
      then (if c =? gt_ then strip_from false s' else strip_from true s')
      else if (c =? lt_) && hasGt s'
           then strip_from true s'
           else c :: strip_from false s'
  end.

Definition strip_tags_spec (s : jsstring) : jsstring := strip_from false s.

Fixpoint decode_from (skip : nat) (s : jsstring) : jsstring :=
  match s with
  | [] => []
  | c :: s' =>
      match skip with
      | S n => decode_from n s'
      | O =>
          match startsWith nbsp s with
          | Some _ => chr " " :: decode_from 5 s'
          | None => c :: decode_from 0 s'
          end
      end
  end.

Definition decode_nbsp_spec (s : jsstring) : jsstring := decode_from 0 s.

Definition clean_spec (s : jsstring) : jsstring :=
  trim (decode_nbsp_spec (strip_tags_spec s)).

Definition isSpecial (c : N) : bool :=
  (c =? chr "_") || (c =? chr "*") || (c =? chr "`") || (c =? chr "[").

Definition escape_spec (text : jsstring) : jsstring :=
  flat_map (fun c => if isSpecial c then [chr "\"; c] else [c]) text.

(** [s] does not start with whitespace. *)
Definition headOk (s : jsstring) : bool :=
  match s with
  | c :: _ => negb (isSpace c)
  | [] => true
  end.

(** No tag, no [&nbsp;] anywhere in [s]. *)
Definition notags (s : jsstring) : Prop := forall u, suffix u s -> tagAt u = None.
Definition nonbsp (s : jsstring) : Prop := forall u, suffix u s -> startsWith nbsp u = None.

(** [occurs label s]: the label pattern matches somewhere in [s]
    (case-insensitively, as every labelled pattern carries the [i] flag). *)
Definition occurs (label : regex) (s : jsstring) : bool :=
  match str_match (mkRegExp label true) s with
  | Some _ => true
  | None => false
  end.

(** No atom of [r] accepts the character [x]. *)
Fixpoint avoids (ci : bool) (x : N) (r : regex) : bool :=
  match r with
  | Empty | Eoi => true
  | Char k | Star _ k => negb (cmatch ci k x)
  | Seq r1 r2 | Alt r1 r2 => avoids ci x r1 && avoids ci x r2
  | Group r1 => avoids ci x r1
  end.

(** [r] does not look at the end of the input; [r] holds no group. *)
Fixpoint eoiFree (r : regex) : bool :=
  match r with
  | Eoi => false
  | Empty | Char _ | Star _ _ => true
  | Seq r1 r2 | Alt r1 r2 => eoiFree r1 && eoiFree r2
  | Group r1 => eoiFree r1
  end.

(** Equality of two words up to the case of ASCII letters. *)
Fixpoint ciEq (a b : jsstring) : bool :=
  match a, b with
  | [], [] => true
  | c :: a', d :: b' => (canonicalize c =? canonicalize d) && ciEq a' b'
  | _, _ => false
  end.

(** What may follow a captured header value: the end of the input, a
    newline, or a carriage return and a newline. *)
Definition lineEnds (post : jsstring) : bool :=
  match post with
  | [] => true
  | c :: t =>
      (c =? LF) || ((c =? CR) && match t with d :: _ => d =? LF | [] => false end)
  end.

Definition notTerminator (c : N) : bool := negb (isLineTerminator c).


Fixpoint groupFree (r : regex) : bool :=
  match r with
  | Group _ => false
  | Empty | Char _ | Star _ _ | Eoi => true
  | Seq r1 r2 | Alt r1 r2 => groupFree r1 && groupFree r2
  end.

(** The pattern of a header line, for any label. *)
Definition headerRe (label : regex) : RegExp :=
  mkRegExp (seqs [label; Star true CSpace; Group (Star false CDot); lineEnd]) true.

(** The labels of the sender line. *)
Definition fromLabels : list jsstring := [str "Dari:"; str "From:"].

(** The colon that ends a header label. *)
Definition colon : N := chr ":".

(** The labels of the subject line and of the date line, and all header
    labels. *)
Definition subjectLabels : list jsstring := [str "Subject:"].

Definition dateLabels : list jsstring := [str "Date:"; str "Tanggal:"; str "Sent:"].

Definition headerLabels : list jsstring := fromLabels ++ subjectLabels ++ dateLabels.

(** The character sets of an address, as the specification lists them. *)
Definition isAlnum (c : N) : bool :=
  ((chr "a" <=? c) && (c <=? chr "z")) || ((chr "A" <=? c) && (c <=? chr "Z"))
  || ((chr "0" <=? c) && (c <=? chr "9")).

Definition isLocalChar (c : N) : bool :=
  isAlnum c || (c =? chr ".") || (c =? chr "_") || (c =? chr "%")
  || (c =? chr "+") || (c =? chr "-").

Definition isDomainChar (c : N) : bool :=
  isAlnum c || (c =? chr ".") || (c =? chr "-").

Definition isLetter (c : N) : bool :=
  ((chr "a" <=? c) && (c <=? chr "z")) || ((chr "A" <=? c) && (c <=? chr "Z")).

(** The specification's shape of an address: a local part, [@], a domain,
    a dot and a final label of at least two letters. *)
Definition emailShaped (e : jsstring) : Prop :=
  exists l d t,
    e = l ++ chr "@" :: d ++ chr "." :: t
    /\ l <> [] /\ forallb isLocalChar l = true
    /\ d <> [] /\ forallb isDomainChar d = true
    /\ (2 <= List.length t)%nat /\ forallb isLetter t = true.

(** Text without [<], [&] and whitespace is clean already. *)
Definition plainChar (c : N) : bool :=
  negb (c =? lt_) && negb (c =? chr "&") && negb (isSpace c).

(** The two examples of the specification. *)
Definition transactionExample : jsstring :=
  str "4 digit Akhir Kartu: 1234<br>Merchant/ATM: Starbucks<br>Tanggal Transaksi: 01/01/2024<br>Nominal: Rp 50.000".

Definition forwardedExample : jsstring :=
  str "From: Jane Doe <jane@example.com>" ++ [LF]
  ++ str "Date: Mon, 1 Jan 2024" ++ [LF] ++ str "Subject: Hello".


(** ** Notions for the further properties *)

Definition backslash : N := chr "\".

(** Reading an escaped text back: a backslash before one of the four
    characters is dropped. *)
Fixpoint unescapeMarkdown (s : jsstring) : jsstring :=
  match s with
  | [] => []
  | c :: s' =>
      match s' with
      | d :: s'' =>
          if (c =? backslash) && isSpecial d
          then d :: unescapeMarkdown s''
          else c :: unescapeMarkdown s'
      | [] => [c]
      end
  end.

(** [s] holds no tag and no [&nbsp;], and neither starts nor ends with
    whitespace. *)
Definition isClean (s : jsstring) : Prop :=
  (forall a b c, s <> a ++ lt_ :: b ++ gt_ :: c)
  /\ (forall a c, s <> a ++ nbsp ++ c)
  /\ headOk s = true /\ headOk (rev s) = true.

(** The pattern of a transaction field with a free-text value, for any
    label. *)
Definition fieldRe (label : regex) : RegExp :=
  mkRegExp (seqs [label; Star true CSpace; Group (Star false CDot); fieldStop]) true.

(** [u] starts with [t], up to the case of ASCII letters. *)
Fixpoint ciPrefix (t u : jsstring) : bool :=
  match t with
  | [] => true
  | c :: t' =>
      match u with
      | d :: u' => (canonicalize d =? canonicalize c) && ciPrefix t' u'
      | [] => false
      end
  end.

(** The stop tokens of a free-text value; [stopAt u]: one of them starts [u]. *)
Definition stopTokens : list jsstring := [str "<br"; str "</p>"; str "&nbsp;"; [LF]].

Definition stopAt (u : jsstring) : bool := existsb (fun t => ciPrefix t u) stopTokens.

(** [raw] lies in [html] right before a stop token, and no stop token
    starts inside it. *)
Definition endsAtFirstStop (html raw : jsstring) : Prop :=
  exists pre post,
    html = pre ++ raw ++ post
    /\ stopAt post = true
    /\ forall a b, raw = a ++ b -> b <> [] -> stopAt (b ++ post) = false.

(** A value that is clean and holds no line terminator. *)
Definition singleLineClean (v : jsstring) : Prop :=
  isClean v /\ forallb notTerminator v = true.

(** A value without tag and without whitespace at either end. *)
Definition trimmedNoTag (v : jsstring) : Prop :=
  (forall a b c, v <> a ++ lt_ :: b ++ gt_ :: c)
  /\ headOk v = true /\ headOk (rev v) = true.

(** The line-break tags: [<br], whitespace, an optional [/], and [>], in
    any letter case. *)
Definition brTag (t : jsstring) : Prop :=
  exists lbl ws sl,
    t = lbl ++ ws ++ sl ++ [gt_]
    /\ ciEq lbl (str "<br") = true
    /\ forallb isSpace ws = true
    /\ (sl = [] \/ sl = [chr "/"]).

(** ** The handler [email] and [sendToTelegram]

    The handler is modelled from the parsed mail on: decoding the raw
    message is postal-mime's work, and the request built by [sendToTelegram]
    is what is handed to [fetch]. *)

(** The fields of a parsed mail the handler reads. *)
Module PostalMime.

Record Address : Type := mkAddress { name : jsstring; address : jsstring }.

Record Email : Type := mkEmail {
  text : option jsstring;
  html : option jsstring;
  subject : option jsstring;
  from : option Address
}.

End PostalMime.

Module Worker.

Record Env : Type := mkEnv {
  TELEGRAM_BOT_TOKEN : jsstring;
  TELEGRAM_CHAT_ID : jsstring
}.

(** [a || b] on strings: [a] when it is defined and not empty. *)
Definition or_ (a : option jsstring) (b : jsstring) : jsstring :=
  match a with
  | Some s => if truthy s then s else b
  | None => b
  end.

(** The request handed to [fetch]: the address, the method, the content
    type and the three members of the body. *)
Record Request : Type := mkRequest {
  url : jsstring;
  method : jsstring;
  contentType : jsstring;
  chat_id : jsstring;
  text : jsstring;
  parse_mode : jsstring
}.

Definition sendToTelegram (token chatId text : jsstring) : Request :=
  mkRequest (str "https://api.telegram.org/bot" ++ token ++ str "/sendMessage")
            (str "POST") (str "application/json") chatId text (str "Markdown").

(** The four code units that open the message in [src/index.ts]. *)
Definition icon : jsstring := [273; 378; 8220; 167].

(** [forwarded.from || (email.from ? `${name} <${address}>` : '(Unknown Sender)')] *)
Definition senderLine (forwardedFrom : option jsstring)
           (emailFrom : option PostalMime.Address) : jsstring :=
  or_ forwardedFrom
      match emailFrom with
      | Some a => PostalMime.name a ++ str " <" ++ PostalMime.address a ++ str ">"
      | None => str "(Unknown Sender)"
      end.

(** The lines up to the subject, the optional date line, and the
    transaction block: the three pieces [telegramMessage] is built from. *)
Definition headLines (from subject : jsstring) : jsstring :=
  icon ++ str " *" ++ from ++ str "*" ++ [LF]
  ++ str "*Subject:* " ++ escapeMarkdown subject ++ [LF].

Definition dateLine (date : jsstring) : jsstring :=
  if truthy date then str "*Date:* " ++ escapeMarkdown date ++ [LF] else [].

Definition detailLines (transactionDetails : TransactionDetails) : jsstring :=
  [LF] ++ str "*Detail Transaksi:*" ++ [LF]
  ++ str "*4 digit Akhir Kartu:* " ++ escapeMarkdown (akhirKartu transactionDetails) ++ [LF]
  ++ str "*Merchant/ATM:* " ++ escapeMarkdown (merchant transactionDetails) ++ [LF]
  ++ str "*Tanggal Transaksi:* " ++ escapeMarkdown (tanggalTransaksi transactionDetails) ++ [LF]
  ++ str "*Nominal:* " ++ escapeMarkdown (nominal transactionDetails).

Definition telegramMessage (email : PostalMime.Email) : jsstring :=
  let forwarded :=
    parseForwardedMail (or_ (PostalMime.text email) (or_ (PostalMime.html email) [])) in
  let subject :=
    or_ (subject forwarded) (or_ (PostalMime.subject email) (str "(No Subject)")) in
  let from := senderLine (from forwarded) (PostalMime.from email) in
  let date := or_ (date forwarded) [] in
  let transactionDetails :=
    parseTransactionDetails (or_ (PostalMime.html email) (or_ (PostalMime.text email) [])) in
  headLines from subject ++ dateLine date ++ detailLines transactionDetails.

(** The handler: nothing is sent without the two settings. *)
Definition email (message : PostalMime.Email) (env : Env) : option Request :=
  let telegramBotToken := TELEGRAM_BOT_TOKEN env in
  let telegramChatId := TELEGRAM_CHAT_ID env in
  if negb (truthy telegramBotToken) || negb (truthy telegramChatId) then None
  else Some (sendToTelegram telegramBotToken telegramChatId (telegramMessage message)).

End Worker.

(** The lines of a text, as [split('\n')] gives them. *)
Fixpoint splitLines (s : jsstring) : list jsstring :=
  match s with
  | [] => [[]]
  | c :: s' =>
      if c =? LF then [] :: splitLines s'
      else match splitLines s' with
           | l :: ls => (c :: l) :: ls
           | [] => [[c]]
           end
  end.

(** A mail and settings to run the handler on. *)
Definition mailExample : PostalMime.Email :=
  PostalMime.mkEmail
    (Some (str "Saldo Anda: Rp 10.000"))
    (Some (str "<p>4 digit Akhir Kartu: 1234<br>Merchant/ATM: Toko_A<br></p>"))
    (Some (str "Info [bank]"))
    (Some (PostalMime.mkAddress (str "Bank") (str "no-reply@bank.co.id"))).

Definition envExample : Worker.Env := Worker.mkEnv (str "123:abc") (str "42").

(** A plain display name: no [@], [<] or [&], no whitespace other than
    single spaces between words. *)
Fixpoint singleSpaced (s : jsstring) : bool :=
  match s with
  | [] => true
  | c :: s' =>
      (if isSpace c then (c =? chr " ") && headOk s' else true) && singleSpaced s'
  end.

Definition plainName (raw : jsstring) : bool :=
  forallb (fun c => negb (c =? chr "@") && negb (c =? lt_) && negb (c =? chr "&")) raw
  && singleSpaced raw && headOk raw && headOk (rev raw).

(** * Properties of the matcher

    The backtracking matcher against the declarative reading [lang]. *)

Section Matcher.

Variable ci : bool.

Lemma orElse_Some (a : option mstate) (b : unit -> option mstate) (z : mstate) :
  orElse a b = Some z -> a = Some z \/ (a = None /\ b tt = Some z).
Proof.
  destruct a as [y|]; simpl; intros H; [left | right]; auto.
Qed.

Lemma starGreedy_sound (k : cclass) (kont : cont) (s : jsstring) :
  forall tk g z,
    starGreedy ci k kont s tk g = Some z ->
    exists w a, s = w ++ a /\ Forall (fun ch => cmatch ci k ch = true) w
                /\ kont (MState a (rev w ++ tk) g) = Some z.
Proof.
  induction s as [|ch s IH]; intros tk g z H; simpl in H.
  - exists [], []. auto.
  - destruct (cmatch ci k ch) eqn:E.
    + apply orElse_Some in H. destruct H as [H | [_ H]].
      * apply IH in H. destruct H as (w & a & -> & Hw & Hk).
        exists (ch :: w), a. split; [reflexivity|]. split; [constructor; auto|].
        simpl. rewrite <- app_assoc. exact Hk.
      * exists [], (ch :: s). auto.
    + exists [], (ch :: s). auto.
Qed.

Lemma starLazy_sound (k : cclass) (kont : cont) (s : jsstring) :
  forall tk g z,
    starLazy ci k kont s tk g = Some z ->
    exists w a, s = w ++ a /\ Forall (fun ch => cmatch ci k ch = true) w
                /\ kont (MState a (rev w ++ tk) g) = Some z.
Proof.
  induction s as [|ch s IH]; intros tk g z H; simpl in H;
    apply orElse_Some in H; destruct H as [H | [_ H]];
    try discriminate.
  - exists [], []. auto.
  - exists [], (ch :: s). auto.
  - destruct (cmatch ci k ch) eqn:E; [|discriminate].
    apply IH in H. destruct H as (w & a & -> & Hw & Hk).
    exists (ch :: w), a. split; [reflexivity|]. split; [constructor; auto|].
    simpl. rewrite <- app_assoc. exact Hk.
Qed.

(** Soundness: a successful run consumed a word of the pattern's language
    and handed the continuation the state after it. *)
Lemma matcher_sound (r : regex) :
  forall kont x z,
    matcher ci r kont x = Some z ->
    exists w a g',
      rest x = w ++ a /\ lang ci r w a (group1 x) g'
      /\ kont (MState a (rev w ++ taken x) g') = Some z.
Proof.
  induction r as [|k|r1 IH1 r2 IH2|r1 IH1 r2 IH2|gr k|r IH|]; intros kont x z H; simpl in H.
  - exists [], (rest x), (group1 x). destruct x; simpl; auto with re.
  - unfold step1 in H. destruct (rest x) as [|ch s] eqn:Ex; [discriminate|].
    destruct (cmatch ci k ch) eqn:E; [|discriminate].
    exists [ch], s, (group1 x). auto with re.
  - apply IH1 in H. destruct H as (w1 & a1 & g1 & Hx & L1 & H).
    apply IH2 in H. simpl in H. destruct H as (w2 & a & g2 & Ha & L2 & H).
    subst a1. exists (w1 ++ w2), a, g2. split; [rewrite Hx, app_assoc; reflexivity|].
    split; [eauto with re|]. rewrite rev_app_distr, <- app_assoc. exact H.
  - apply orElse_Some in H. destruct H as [H | [_ H]].
    + apply IH1 in H. destruct H as (w & a & g' & ? & ? & ?). exists w, a, g'. auto with re.
    + apply IH2 in H. destruct H as (w & a & g' & ? & ? & ?). exists w, a, g'. auto with re.
  - destruct gr.
    + apply starGreedy_sound in H. destruct H as (w & a & ? & ? & ?).
      exists w, a, (group1 x). auto with re.
    + apply starLazy_sound in H. destruct H as (w & a & ? & ? & ?).
      exists w, a, (group1 x). auto with re.
  - apply IH in H. simpl in H. destruct H as (w & a & g' & Hx & L & H).
    exists w, a, (Some w). split; [exact Hx|]. split; [eauto with re|].
    rewrite app_nil_r, rev_involutive in H. exact H.
  - destruct (rest x) eqn:Ex; [|discriminate].
    exists [], [], (group1 x). destruct x; simpl in *; subst; auto with re.
Qed.

Lemma starGreedy_fallback (k : cclass) (kont : cont) (s tk : jsstring) g z :
  kont (MState s tk g) = Some z -> exists z', starGreedy ci k kont s tk g = Some z'.
Proof.
  intros H. destruct s as [|ch s]; simpl; [eauto|].
  destruct (cmatch ci k ch); [|eauto].
  destruct (starGreedy ci k kont s (ch :: tk) g); simpl; eauto.
Qed.

Lemma starLazy_fallback (k : cclass) (kont : cont) (s tk : jsstring) g z :
  kont (MState s tk g) = Some z -> exists z', starLazy ci k kont s tk g = Some z'.
Proof.
  intros H. destruct s as [|ch s]; simpl; rewrite H; simpl; eauto.
Qed.

Lemma starGreedy_complete (k : cclass) (kont : cont) (w : jsstring) :
  forall a tk g z,
    Forall (fun ch => cmatch ci k ch = true) w ->
    kont (MState a (rev w ++ tk) g) = Some z ->
    exists z', starGreedy ci k kont (w ++ a) tk g = Some z'.
Proof.
  induction w as [|ch w IH]; intros a tk g z Hw Hk; simpl in *.
  - eapply starGreedy_fallback; eauto.
  - inversion Hw as [|? ? Hc Hw']; subst. rewrite Hc.
    rewrite <- app_assoc in Hk. simpl in Hk.
    destruct (IH a (ch :: tk) g z Hw' Hk) as [z' ->]. simpl. eauto.
Qed.

Lemma starLazy_complete (k : cclass) (kont : cont) (w : jsstring) :
  forall a tk g z,
    Forall (fun ch => cmatch ci k ch = true) w ->
    kont (MState a (rev w ++ tk) g) = Some z ->
    exists z', starLazy ci k kont (w ++ a) tk g = Some z'.
Proof.
  induction w as [|ch w IH]; intros a tk g z Hw Hk; simpl in *.
  - eapply starLazy_fallback; eauto.
  - inversion Hw as [|? ? Hc Hw']; subst. rewrite Hc.
    rewrite <- app_assoc in Hk. simpl in Hk.
    destruct (kont (MState (ch :: w ++ a) tk g)); simpl; [eauto|].
    eapply IH; eauto.
Qed.

(** Completeness: backtracking finds a match whenever the declarative
    reading offers one that the continuation accepts. *)
Lemma matcher_complete (r : regex) (w a : jsstring) (g g' : option jsstring) :
  lang ci r w a g g' ->
  forall kont tk z,
    kont (MState a (rev w ++ tk) g') = Some z ->
    exists z', matcher ci r kont (MState (w ++ a) tk g) = Some z'.
Proof.
  induction 1 as [a g|k ch a g Hc|r1 r2 w1 w2 a g g1 g2 _ IH1 _ IH2
                  |r1 r2 w a g g' _ IH|r1 r2 w a g g' _ IH|gr k w a g Hw
                  |r w a g g' _ IH|g]; intros kont tk z Hk; simpl in *.
  - eauto.
  - unfold step1; simpl. rewrite Hc. eauto.
  - rewrite rev_app_distr, <- app_assoc in Hk.
    destruct (IH2 kont (rev w1 ++ tk) z Hk) as [z2 H2].
    rewrite <- app_assoc. eapply IH1; eauto.
  - destruct (IH kont tk z Hk) as [z' ->]. simpl. eauto.
  - destruct (matcher ci r1 kont (MState (w ++ a) tk g)); simpl; eauto.
  - destruct gr; [eapply starGreedy_complete | eapply starLazy_complete]; eauto.
  - eapply IH with (tk := []). simpl. rewrite app_nil_r, rev_involutive. exact Hk.
  - eauto.
Qed.

End Matcher.

(** Inversion of the declarative reading, one lemma per constructor. *)
Lemma lang_Empty_inv (ci : bool) (w a : jsstring) (g g' : option jsstring) :
  lang ci Empty w a g g' -> w = [] /\ g' = g.
Proof. intros L. inversion L; subst. auto. Qed.

Lemma lang_Char_inv (ci : bool) (k : cclass) (w a : jsstring) (g g' : option jsstring) :
  lang ci (Char k) w a g g' -> exists ch, w = [ch] /\ cmatch ci k ch = true /\ g' = g.
Proof. intros L. inversion L; subst. eauto. Qed.

Lemma lang_Seq_inv (ci : bool) (r1 r2 : regex) (w a : jsstring) (g g2 : option jsstring) :
  lang ci (Seq r1 r2) w a g g2 ->
  exists w1 w2 g1,
    w = w1 ++ w2 /\ lang ci r1 w1 (w2 ++ a) g g1 /\ lang ci r2 w2 a g1 g2.
Proof. intros L. inversion L; subst. eauto 7. Qed.

Lemma lang_Alt_inv (ci : bool) (r1 r2 : regex) (w a : jsstring) (g g' : option jsstring) :
  lang ci (Alt r1 r2) w a g g' -> lang ci r1 w a g g' \/ lang ci r2 w a g g'.
Proof. intros L. inversion L; subst; auto. Qed.

Lemma lang_Star_inv (ci gr : bool) (k : cclass) (w a : jsstring) (g g' : option jsstring) :
  lang ci (Star gr k) w a g g' -> forallb (cmatch ci k) w = true /\ g' = g.
Proof.
  intros L. inversion L; subst. split; [|reflexivity].
  apply forallb_forall. apply Forall_forall. assumption.
Qed.

Lemma lang_Group_inv (ci : bool) (r : regex) (w a : jsstring) (g g' : option jsstring) :
  lang ci (Group r) w a g g' -> (exists g0, lang ci r w a g g0) /\ g' = Some w.
Proof. intros L. inversion L; subst. eauto. Qed.

Lemma lang_Eoi_inv (ci : bool) (w a : jsstring) (g g' : option jsstring) :
  lang ci Eoi w a g g' -> w = [] /\ a = [] /\ g' = g.
Proof. intros L. inversion L; subst. auto. Qed.

Lemma lang_Star_intro (ci gr : bool) (k : cclass) (w a : jsstring) (g : option jsstring) :
  forallb (cmatch ci k) w = true -> lang ci (Star gr k) w a g g.
Proof.
  intros H. constructor. apply Forall_forall. apply forallb_forall. exact H.
Qed.

(** ** One attempt, the search, and global replacement *)

Lemma exec_at_sound (re : RegExp) (s : jsstring) (y : mstate) :
  exec_at re s = Some y ->
  exists w, s = w ++ rest y /\ taken y = rev w
            /\ lang (ignoreCase re) (source re) w (rest y) None (group1 y).
Proof.
  unfold exec_at. intros H. apply matcher_sound in H.
  destruct H as (w & a & g' & Hs & L & H). simpl in *.
  injection H as <-. simpl. rewrite app_nil_r. eauto.
Qed.

Lemma exec_at_complete (re : RegExp) (w a : jsstring) (g' : option jsstring) :
  lang (ignoreCase re) (source re) w a None g' ->
  exists y, exec_at re (w ++ a) = Some y.
Proof.
  intros L. unfold exec_at. eapply matcher_complete; eauto.
Qed.

Lemma exec_at_shorter (re : RegExp) (s : jsstring) (y : mstate) :
  exec_at re s = Some y -> taken y <> [] ->
  (List.length (rest y) < List.length s)%nat.
Proof.
  intros H Hne. apply exec_at_sound in H. destruct H as (w & -> & Ht & _).
  rewrite length_app. destruct w as [|c w]; [rewrite Ht in Hne; now elim Hne|].
  simpl. lia.
Qed.

Lemma suffix_refl (s : jsstring) : suffix s s.
Proof. exists []. reflexivity. Qed.

Lemma suffix_cons (c : N) (u s : jsstring) : suffix u s -> suffix u (c :: s).
Proof. intros [pre ->]. exists (c :: pre). reflexivity. Qed.

Lemma suffix_app (p u s : jsstring) : suffix u s -> suffix u (p ++ s).
Proof. intros [pre ->]. exists (p ++ pre). now rewrite app_assoc. Qed.

Lemma suffix_trans (u v s : jsstring) : suffix u v -> suffix v s -> suffix u s.
Proof. intros [p ->] [q ->]. exists (q ++ p). now rewrite app_assoc. Qed.

Lemma suffix_inv (u : jsstring) (c : N) (s : jsstring) :
  suffix u (c :: s) -> u = c :: s \/ suffix u s.
Proof.
  intros [[|d pre] H]; simpl in H.
  - left. congruence.
  - right. injection H as _ ->. exists pre. reflexivity.
Qed.

Lemma suffix_nil_inv (u : jsstring) : suffix u [] -> u = [].
Proof.
  intros [pre H]. symmetry in H. apply app_eq_nil in H. tauto.
Qed.

(** The search returns the leftmost successful attempt. *)
Lemma str_match_Some (re : RegExp) (s : jsstring) (m : MatchResult) :
  str_match re s = Some m ->
  exists pre u y,
    s = pre ++ u /\ exec_at re u = Some y
    /\ m = mkMatch (rev (taken y)) (group1 y)
    /\ forall p q, pre = p ++ q -> q <> [] -> exec_at re (q ++ u) = None.
Proof.
  induction s as [|c s IH]; simpl; intros H.
  - destruct (exec_at re []) as [y|] eqn:E; [|discriminate].
    injection H as <-. exists [], [], y. repeat split; auto.
    intros p q Hq Hne. symmetry in Hq. apply app_eq_nil in Hq. tauto.
  - destruct (exec_at re (c :: s)) as [y|] eqn:E.
    + injection H as <-. exists [], (c :: s), y. repeat split; auto.
      intros p q Hq Hne. symmetry in Hq. apply app_eq_nil in Hq. tauto.
    + apply IH in H. destruct H as (pre & u & y & -> & Hy & -> & Hleft).
      exists (c :: pre), u, y. repeat split; auto.
      intros [|d p] q Hq Hne; simpl in Hq.
      * subst q. exact E.
      * injection Hq as _ Hq. eauto.
Qed.

Lemma str_match_None (re : RegExp) (s : jsstring) :
  str_match re s = None -> forall u, suffix u s -> exec_at re u = None.
Proof.
  induction s as [|c s IH]; simpl; intros H u Hu.
  - apply suffix_nil_inv in Hu. subst u.
    destruct (exec_at re []); [discriminate|reflexivity].
  - destruct (exec_at re (c :: s)) eqn:E; [discriminate|].
    apply suffix_inv in Hu. destruct Hu as [-> | Hu]; auto.
Qed.

Lemma str_match_found (re : RegExp) (s u : jsstring) (y : mstate) :
  suffix u s -> exec_at re u = Some y -> exists m, str_match re s = Some m.
Proof.
  intros Hu Hy. destruct (str_match re s) as [m|] eqn:E; [eauto|].
  rewrite (str_match_None _ _ E _ Hu) in Hy. discriminate.
Qed.

(** Enough fuel: the loop does not depend on the fuel once it exceeds the
    length of the input, which gives [replace_all] its unfolding. *)
Lemma replace_loop_fuel (re : RegExp) (t : list ritem) :
  forall fuel fuel' s,
    (List.length s < fuel)%nat -> (List.length s < fuel')%nat ->
    replace_loop fuel re t s = replace_loop fuel' re t s.
Proof.
  induction fuel as [|fuel IH]; intros fuel' s H H'; [lia|].
  destruct fuel' as [|fuel']; [lia|]. simpl.
  destruct (exec_at re s) as [y|] eqn:E.
  - destruct (taken y) as [|c tk] eqn:Et.
    + destruct s as [|c s]; [reflexivity|]. simpl in *.
      f_equal. f_equal. apply IH; lia.
    + assert (List.length (rest y) < List.length s)%nat
        by (apply (exec_at_shorter _ _ _ E); rewrite Et; discriminate).
      f_equal. apply IH; lia.
  - destruct s as [|c s]; [reflexivity|]. simpl in *. f_equal. apply IH; lia.
Qed.

Lemma replace_all_hit (re : RegExp) (t : list ritem) (s : jsstring) (y : mstate) :
  exec_at re s = Some y -> taken y <> [] ->
  replace_all re t s = expand t (rev (taken y)) ++ replace_all re t (rest y).
Proof.
  intros E Hne. unfold replace_all at 1. simpl. rewrite E.
  destruct (taken y) as [|c tk] eqn:Et; [now elim Hne|].
  f_equal. apply replace_loop_fuel; [|lia].
  apply (exec_at_shorter _ _ _ E). rewrite Et. discriminate.
Qed.

Lemma replace_all_miss (re : RegExp) (t : list ritem) (c : N) (s : jsstring) :
  exec_at re (c :: s) = None ->
  replace_all re t (c :: s) = c :: replace_all re t s.
Proof.
  intros E. unfold replace_all at 1. simpl List.length.
  change (replace_loop (S (S (List.length s))) re t (c :: s))
    with (match exec_at re (c :: s) with
          | Some y =>
              match taken y, c :: s with
              | _ :: _, _ => expand t (rev (taken y)) ++ replace_loop (S (List.length s)) re t (rest y)
              | [], c :: s' => expand t [] ++ c :: replace_loop (S (List.length s)) re t s'
              | [], [] => expand t []
              end
          | None => c :: replace_loop (S (List.length s)) re t s
          end).
  rewrite E. reflexivity.
Qed.

Lemma replace_all_nil (re : RegExp) (t : list ritem) :
  exec_at re [] = None -> replace_all re t [] = [].
Proof.
  intros E. unfold replace_all. simpl. rewrite E. reflexivity.
Qed.

(** Where the pattern matches nowhere the string is returned as it is. *)
Lemma replace_all_id (re : RegExp) (t : list ritem) (s : jsstring) :
  (forall u, suffix u s -> exec_at re u = None) -> replace_all re t s = s.
Proof.
  induction s as [|c s IH]; intros H.
  - apply replace_all_nil. apply H, suffix_refl.
  - rewrite replace_all_miss by (apply H, suffix_refl).
    f_equal. apply IH. intros u Hu. apply H, suffix_cons, Hu.
Qed.

(** ** Global replacement by a pattern that never matches the empty word

    All the global patterns of the program are of this kind. *)

Lemma expand_plain (w m : jsstring) : expand (plain w) m = w.
Proof.
  unfold expand, plain. induction w as [|c w IH]; simpl; [reflexivity|].
  now rewrite IH.
Qed.

Section Replace.

Variable re : RegExp.
Variable t : list ritem.
Hypothesis Hne : nonempty_matches re.

Lemma nonempty_exec_nil : exec_at re [] = None.
Proof.
  destruct (exec_at re []) as [y|] eqn:E; [|reflexivity].
  exfalso. apply (Hne _ _ E). apply exec_at_sound in E.
  destruct E as (w & Hw & Ht & _). symmetry in Hw. apply app_eq_nil in Hw.
  destruct Hw as [-> _]. exact Ht.
Qed.

Lemma replace_all_empty : replace_all re t [] = [].
Proof. apply replace_all_nil, nonempty_exec_nil. Qed.

(** Induction along the run of the replacement loop. *)
Lemma replace_all_ind (P : jsstring -> jsstring -> Prop) :
  P [] [] ->
  (forall c s, exec_at re (c :: s) = None ->
               P s (replace_all re t s) -> P (c :: s) (c :: replace_all re t s)) ->
  (forall s y w, exec_at re s = Some y -> s = w ++ rest y -> w <> [] ->
                 taken y = rev w ->
                 P (rest y) (replace_all re t (rest y)) ->
                 P s (expand t w ++ replace_all re t (rest y))) ->
  forall s, P s (replace_all re t s).
Proof.
  intros Hnil Hmiss Hhit s.
  remember (List.length s) as n eqn:Hn. revert s Hn.
  induction n as [n IH] using lt_wf_ind. intros s Hn.
  destruct (exec_at re s) as [y|] eqn:E.
  - pose proof (Hne _ _ E) as Hy.
    rewrite (replace_all_hit _ t _ _ E Hy).
    pose proof (exec_at_shorter _ _ _ E Hy) as Hlt.
    destruct (exec_at_sound _ _ _ E) as (w & Hs & Ht & _).
    rewrite Ht, rev_involutive.
    apply (Hhit s y w); auto.
    + intros ->. apply Hy. exact Ht.
    + apply (IH (List.length (rest y))); [lia|reflexivity].
  - destruct s as [|c s].
    + rewrite replace_all_empty. exact Hnil.
    + rewrite (replace_all_miss _ t _ _ E). apply Hmiss; [exact E|].
      apply (IH (List.length s)); [simpl in Hn; lia|reflexivity].
Qed.

End Replace.

Section ReplacePlain.

Variable re : RegExp.
Variable r : jsstring.
Hypothesis Hne : nonempty_matches re.

(** Replacement invents no character. *)
Lemma replace_all_In (c : N) (s : jsstring) :
  In c (replace_all re (plain r) s) -> In c s \/ In c r.
Proof.
  revert c. pattern s, (replace_all re (plain r) s).
  apply replace_all_ind; [exact Hne|..].
  - intros c [].
  - intros d s' _ IH c [->|H]; [left; left; reflexivity|].
    destruct (IH c H); [left; right|right]; assumption.
  - intros s' y w _ -> _ _ IH c H. rewrite expand_plain in H.
    apply in_app_or in H. destruct H as [H|H]; [right; exact H|].
    destruct (IH c H); [left; apply in_or_app; right|right]; assumption.
Qed.

(** With a replacement of at most one character, what follows an index of
    the result is the result for what follows an index of the input. *)
Lemma replace_all_suffix (s v : jsstring) :
  (List.length r <= 1)%nat ->
  suffix v (replace_all re (plain r) s) ->
  exists u, suffix u s /\ v = replace_all re (plain r) u.
Proof.
  intros Hr. revert v. pattern s, (replace_all re (plain r) s).
  apply replace_all_ind; [exact Hne|..].
  - intros v Hv. apply suffix_nil_inv in Hv. subst v.
    exists []. split; [apply suffix_refl|].
    symmetry. apply replace_all_empty, Hne.
  - intros c s' E IH v Hv. apply suffix_inv in Hv. destruct Hv as [-> | Hv].
    + exists (c :: s'). split; [apply suffix_refl|].
      symmetry. apply replace_all_miss, E.
    + destruct (IH v Hv) as (u & Hu & ->). exists u. split; [apply suffix_cons|]; auto.
  - intros s' y w E Hs Hw Ht IH v Hv. rewrite expand_plain in Hv.
    assert (Hrest : forall v', suffix v' (replace_all re (plain r) (rest y)) ->
                    exists u, suffix u s' /\ v' = replace_all re (plain r) u).
    { intros v' Hv'. destruct (IH v' Hv') as (u & Hu & ->). exists u.
      split; [|reflexivity]. rewrite Hs. apply suffix_app, Hu. }
    destruct r as [|x [|x' r']]; [| |simpl in Hr; lia]; simpl in Hv.
    + apply Hrest, Hv.
    + apply suffix_inv in Hv. destruct Hv as [-> | Hv]; [|apply Hrest, Hv].
      exists s'. split; [apply suffix_refl|].
      rewrite (replace_all_hit _ (plain [x]) _ _ E (Hne _ _ E)), expand_plain. reflexivity.
Qed.

End ReplacePlain.

(** A word free of the replacement character that starts the result starts
    the input. *)
Lemma replace_all_prefix (re : RegExp) (x : N) (w : jsstring) :
  nonempty_matches re -> ~ In x w ->
  forall s b, replace_all re (plain [x]) s = w ++ b -> exists b', s = w ++ b'.
Proof.
  intros Hne. induction w as [|d w IH]; intros Hx s b H.
  - exists s. reflexivity.
  - destruct (exec_at re s) as [y|] eqn:E.
    + rewrite (replace_all_hit _ _ _ _ E (Hne _ _ E)), expand_plain in H.
      simpl in H. injection H as -> _. elim Hx. left. reflexivity.
    + destruct s as [|c s].
      * rewrite replace_all_empty in H by exact Hne. discriminate.
      * rewrite (replace_all_miss _ _ _ _ E) in H. simpl in H. injection H as -> H.
        destruct (IH (fun K => Hx (or_intror K)) s b H) as [b' ->].
        exists b'. reflexivity.
Qed.

Lemma lang_consumes (ci : bool) (r : regex) (w a : jsstring) (g g' : option jsstring) :
  lang ci r w a g g' -> consumes r = true -> w <> [].
Proof.
  induction 1; simpl; intros Hc; try discriminate; auto.
  - apply orb_true_iff in Hc. intros Hw. apply app_eq_nil in Hw.
    destruct Hw, Hc; [apply IHlang1 | apply IHlang2]; assumption.
  - apply andb_true_iff in Hc. tauto.
  - apply andb_true_iff in Hc. tauto.
Qed.

Lemma consumes_nonempty (re : RegExp) :
  consumes (source re) = true -> nonempty_matches re.
Proof.
  intros Hc s y E. apply exec_at_sound in E. destruct E as (w & _ & Ht & L).
  intros Hy. apply (lang_consumes _ _ _ _ _ _ L Hc).
  rewrite Hy in Ht. apply (f_equal (@rev N)) in Ht.
  rewrite rev_involutive in Ht. simpl in Ht. congruence.
Qed.

(** ** Case-sensitive literal words *)

Lemma startsWith_Some (w s r : jsstring) : startsWith w s = Some r <-> s = w ++ r.
Proof.
  revert s. induction w as [|c w IH]; intros s; simpl.
  - split; congruence.
  - destruct s as [|d s]; [split; discriminate|].
    destruct (N.eqb_spec c d) as [->|Hcd].
    + rewrite IH. split; congruence.
    + split; [discriminate|congruence].
Qed.

Lemma startsWith_app (w r : jsstring) : startsWith w (w ++ r) = Some r.
Proof. apply startsWith_Some. reflexivity. Qed.

Lemma lits_exact (w : jsstring) :
  forall kont s tk g,
    matcher false (lits w) kont (MState s tk g)
    = match startsWith w s with
      | Some r => kont (MState r (rev w ++ tk) g)
      | None => None
      end.
Proof.
  induction w as [|c w IH]; intros kont s tk g; [reflexivity|].
  destruct w as [|c' w'].
  - simpl. unfold step1. simpl. destruct s as [|d s]; [reflexivity|].
    destruct (N.eqb_spec c d) as [->|]; reflexivity.
  - change (lits (c :: c' :: w')) with (Seq (Char (CLit c)) (lits (c' :: w'))).
    destruct s as [|d s]; [reflexivity|].
    change (startsWith (c :: c' :: w') (d :: s))
      with (if c =? d then startsWith (c' :: w') s else None).
    cbn [matcher]. unfold step1. cbn [rest taken group1 cmatch].
    destruct (N.eqb_spec c d) as [->|]; [|reflexivity].
    rewrite IH. destruct (startsWith (c' :: w') s); [|reflexivity].
    f_equal. f_equal. cbn [rev]. rewrite <- !app_assoc. reflexivity.
Qed.

Lemma exec_at_lits (w s : jsstring) :
  exec_at (mkRegExp (lits w) false) s
  = option_map (fun r => MState r (rev w) None) (startsWith w s).
Proof.
  unfold exec_at. cbn [source ignoreCase]. rewrite lits_exact.
  destruct (startsWith w s); [|reflexivity]. simpl. now rewrite app_nil_r.
Qed.

(** ** The tag pattern [<[^>]*>] *)

Lemma tag_body (t : jsstring) :
  forall tk g,
    option_map rest
      (starGreedy false (CNot (CLit gt_)) (step1 false (CLit gt_) (fun y => Some y)) t tk g)
    = afterGt t.
Proof.
  induction t as [|c t IH]; intros tk g; [reflexivity|].
  cbn [starGreedy cmatch afterGt]. rewrite N.eqb_sym.
  destruct (N.eqb_spec c gt_) as [->|Hc].
  - reflexivity.
  - cbn [negb]. specialize (IH (c :: tk) g).
    destruct (starGreedy _ _ _ t (c :: tk) g) as [y|]; cbn [orElse]; [exact IH|].
    unfold step1. cbn [rest cmatch]. rewrite N.eqb_sym.
    destruct (N.eqb_spec c gt_); [contradiction|]. exact IH.
Qed.

Lemma exec_at_tag (s : jsstring) : option_map rest (exec_at tagRe s) = tagAt s.
Proof.
  unfold exec_at. cbn [source ignoreCase tagRe seqs C matcher].
  unfold step1 at 1. cbn [rest taken group1 cmatch]. destruct s as [|c s]; [reflexivity|].
  cbn [tagAt]. fold lt_. rewrite N.eqb_sym.
  destruct (c =? lt_); [|reflexivity].
  apply tag_body.
Qed.

(** ** [clean] against its specification *)

Lemma tagRe_nonempty : nonempty_matches tagRe.
Proof. apply consumes_nonempty. reflexivity. Qed.

Lemma nbspRe_nonempty : nonempty_matches nbspRe.
Proof. apply consumes_nonempty. reflexivity. Qed.

Lemma specialRe_nonempty : nonempty_matches specialRe.
Proof. apply consumes_nonempty. reflexivity. Qed.

Lemma brRe_nonempty : nonempty_matches brRe.
Proof. apply consumes_nonempty. reflexivity. Qed.

Lemma exec_at_nbsp (s : jsstring) : option_map rest (exec_at nbspRe s) = startsWith nbsp s.
Proof.
  unfold nbspRe, lit. fold nbsp. rewrite exec_at_lits.
  destruct (startsWith nbsp s); reflexivity.
Qed.

Lemma afterGt_hasGt (s : jsstring) :
  hasGt s = match afterGt s with Some _ => true | None => false end.
Proof.
  induction s as [|c s IH]; [reflexivity|]. simpl.
  destruct (c =? gt_); [reflexivity|exact IH].
Qed.

Lemma strip_inside (t r : jsstring) :
  afterGt t = Some r -> strip_from true t = strip_from false r.
Proof.
  induction t as [|c t IH]; simpl; [discriminate|].
  destruct (c =? gt_); [congruence|exact IH].
Qed.

Lemma tagAt_None_strip (c : N) (s : jsstring) :
  tagAt (c :: s) = None -> strip_from false (c :: s) = c :: strip_from false s.
Proof.
  simpl. rewrite afterGt_hasGt. destruct (c =? lt_); [|reflexivity].
  intros ->. reflexivity.
Qed.

Lemma tagAt_Some_strip (s r : jsstring) :
  tagAt s = Some r -> strip_from false s = strip_from false r.
Proof.
  destruct s as [|c s]; simpl; [discriminate|]. rewrite afterGt_hasGt.
  destruct (c =? lt_); [|discriminate]. intros H. rewrite H. simpl.
  apply strip_inside, H.
Qed.

Lemma exec_rest_None (re : RegExp) (s : jsstring) (f : jsstring -> option jsstring) :
  option_map rest (exec_at re s) = f s -> exec_at re s = None -> f s = None.
Proof. intros <- ->. reflexivity. Qed.

Lemma exec_rest_Some (re : RegExp) (s : jsstring) (f : jsstring -> option jsstring) (y : mstate) :
  option_map rest (exec_at re s) = f s -> exec_at re s = Some y -> f s = Some (rest y).
Proof. intros <- ->. reflexivity. Qed.

Lemma strip_tags_correct (s : jsstring) :
  replace_all tagRe (plain []) s = strip_tags_spec s.
Proof.
  unfold strip_tags_spec. pattern s, (replace_all tagRe (plain []) s).
  apply replace_all_ind; [exact tagRe_nonempty|..].
  - reflexivity.
  - intros c s' E IH. rewrite IH. symmetry. apply tagAt_None_strip.
    apply (exec_rest_None tagRe _ tagAt (exec_at_tag _) E).
  - intros s' y w E _ _ _ IH. rewrite expand_plain, IH. simpl. symmetry.
    apply tagAt_Some_strip. apply (exec_rest_Some tagRe _ tagAt y (exec_at_tag _) E).
Qed.

Lemma decode_nbsp_correct (s : jsstring) :
  replace_all nbspRe (plain (str " ")) s = decode_nbsp_spec s.
Proof.
  unfold decode_nbsp_spec. pattern s, (replace_all nbspRe (plain (str " ")) s).
  apply replace_all_ind; [exact nbspRe_nonempty|..].
  - reflexivity.
  - intros c s' E IH. rewrite IH.
    pose proof (exec_rest_None nbspRe _ (startsWith nbsp) (exec_at_nbsp _) E) as H.
    cbn [decode_from]. rewrite H. reflexivity.
  - intros s' y w E _ _ _ IH. rewrite expand_plain, IH.
    pose proof (exec_rest_Some nbspRe _ (startsWith nbsp) y (exec_at_nbsp _) E) as H.
    apply startsWith_Some in H. rewrite H. reflexivity.
Qed.

Lemma clean_eq_spec (s : jsstring) : clean s = clean_spec s.
Proof.
  unfold clean, clean_spec. now rewrite strip_tags_correct, decode_nbsp_correct.
Qed.

(** ** [escapeMarkdown] against its specification *)

Lemma exec_at_special (c : N) (s : jsstring) :
  exec_at specialRe (c :: s) = if isSpecial c then Some (MState s [c] None) else None.
Proof.
  unfold exec_at, isSpecial. cbn [source ignoreCase specialRe matcher].
  unfold step1. cbn [rest taken group1].
  replace (cmatch false specialClass c) with
    ((c =? chr "_") || (c =? chr "*") || (c =? chr "`") || (c =? chr "[")).
  - reflexivity.
  - cbn. rewrite !(N.eqb_sym c). rewrite !orb_assoc. reflexivity.
Qed.

Lemma escape_correct (text : jsstring) :
  replace_all specialRe [RChar (chr "\"); RMatched] text = escape_spec text.
Proof.
  induction text as [|c s IH].
  - apply replace_all_empty, specialRe_nonempty.
  - pose proof (exec_at_special c s) as E. unfold escape_spec. cbn [flat_map].
    fold (escape_spec s). destruct (isSpecial c).
    + rewrite (replace_all_hit _ _ _ _ E) by discriminate.
      cbn [rest taken]. rewrite IH. reflexivity.
    + rewrite (replace_all_miss _ _ _ _ E), IH. reflexivity.
Qed.

(** ** [trim] *)

Lemma trimStart_headOk (s : jsstring) : headOk (trimStart s) = true.
Proof.
  induction s as [|c s IH]; simpl; [reflexivity|].
  destruct (isSpace c) eqn:E; [exact IH|]. simpl. now rewrite E.
Qed.

Lemma headOk_trimStart (s : jsstring) : headOk s = true -> trimStart s = s.
Proof.
  destruct s as [|c s]; simpl; [reflexivity|].
  destruct (isSpace c); [discriminate|reflexivity].
Qed.

Lemma headOk_app (x y : jsstring) : headOk (x ++ y) = true -> headOk x = true.
Proof. destruct x; simpl; auto. Qed.

Lemma trimStart_suffix (s : jsstring) : suffix (trimStart s) s.
Proof.
  induction s as [|c s IH]; simpl; [apply suffix_refl|].
  destruct (isSpace c); [apply suffix_cons, IH|apply suffix_refl].
Qed.

Lemma trimEnd_prefix (s : jsstring) : exists q, s = trimEnd s ++ q.
Proof.
  unfold trimEnd. destruct (trimStart_suffix (rev s)) as [pre H].
  exists (rev pre). apply (f_equal (@rev N)) in H.
  rewrite rev_involutive, rev_app_distr in H. exact H.
Qed.

Lemma trim_factor (s : jsstring) : exists pre q, s = pre ++ trim s ++ q.
Proof.
  unfold trim. destruct (trimStart_suffix s) as [pre H].
  destruct (trimEnd_prefix (trimStart s)) as [q Hq].
  exists pre, q. rewrite <- Hq. exact H.
Qed.

Lemma trim_idem (s : jsstring) : trim (trim s) = trim s.
Proof.
  unfold trim at 2 3. unfold trimEnd.
  set (A := trimStart s). set (B := trimStart (rev A)).
  assert (HB : headOk B = true) by apply trimStart_headOk.
  assert (HA : headOk (rev B) = true).
  { destruct (trimStart_suffix (rev A)) as [pre H]. fold B in H.
    apply (f_equal (@rev N)) in H. rewrite rev_involutive, rev_app_distr in H.
    apply (headOk_app (rev B) (rev pre)). rewrite <- H. apply trimStart_headOk. }
  unfold trim, trimEnd. rewrite (headOk_trimStart _ HA), rev_involutive.
  now rewrite (headOk_trimStart _ HB).
Qed.

(** ** Idempotence of [clean] *)

Lemma hasGt_In (s : jsstring) : hasGt s = true <-> In gt_ s.
Proof.
  unfold hasGt. rewrite existsb_exists. split.
  - intros (c & Hc & E). apply N.eqb_eq in E. now subst c.
  - intros H. exists gt_. split; [exact H|apply N.eqb_refl].
Qed.

Lemma hasGt_strip (u : jsstring) :
  forall b, hasGt u = false -> hasGt (strip_from b u) = false.
Proof.
  induction u as [|c u IH]; intros b H; [reflexivity|].
  simpl in H. apply orb_false_iff in H. destruct H as [Hc Hu].
  simpl. rewrite Hc. destruct b; [apply IH, Hu|].
  destruct ((c =? lt_) && hasGt u); [apply IH, Hu|].
  simpl. rewrite Hc. apply IH, Hu.
Qed.

Lemma tagAt_strip (u : jsstring) : forall b, tagAt (strip_from b u) = None.
Proof.
  induction u as [|c u IH]; intros b; [reflexivity|]. simpl.
  destruct b; [destruct (c =? gt_); apply IH|].
  destruct (c =? lt_) eqn:Ec; simpl.
  - destruct (hasGt u) eqn:Eu; [apply IH|]. simpl. rewrite Ec.
    pose proof (hasGt_strip u false Eu) as H. rewrite afterGt_hasGt in H.
    destruct (afterGt (strip_from false u)); [discriminate|reflexivity].
  - rewrite Ec. reflexivity.
Qed.

Lemma notags_strip (s : jsstring) : notags (replace_all tagRe (plain []) s).
Proof.
  intros v Hv. apply replace_all_suffix in Hv; [|exact tagRe_nonempty|simpl; lia].
  destruct Hv as (u & _ & ->). rewrite strip_tags_correct. apply tagAt_strip.
Qed.

Lemma exec_nbsp_hit (r : jsstring) :
  exec_at nbspRe (nbsp ++ r) = Some (MState r (rev nbsp) None).
Proof.
  unfold nbspRe, lit. fold nbsp. now rewrite exec_at_lits, startsWith_app.
Qed.

Lemma nonbsp_decode (s : jsstring) : nonbsp (replace_all nbspRe (plain (str " ")) s).
Proof.
  intros v Hv. apply replace_all_suffix in Hv; [|exact nbspRe_nonempty|simpl; lia].
  destruct Hv as (u & _ & ->).
  destruct (startsWith nbsp (replace_all nbspRe (plain (str " ")) u)) as [r|] eqn:E;
    [exfalso|reflexivity].
  apply startsWith_Some in E.
  destruct (replace_all_prefix nbspRe (chr " ") nbsp nbspRe_nonempty) with (s := u) (b := r)
    as [b' ->]; [|exact E|].
  - cbv. intuition discriminate.
  - rewrite (replace_all_hit _ _ _ _ (exec_nbsp_hit b')) in E by discriminate.
    rewrite expand_plain in E. discriminate.
Qed.

Lemma notags_decode (s : jsstring) :
  notags s -> notags (replace_all nbspRe (plain (str " ")) s).
Proof.
  intros Hs v Hv. apply replace_all_suffix in Hv; [|exact nbspRe_nonempty|simpl; lia].
  destruct Hv as (u & Hu & ->).
  destruct (exec_at nbspRe u) as [y|] eqn:E.
  - rewrite (replace_all_hit _ _ _ _ E (nbspRe_nonempty _ _ E)), expand_plain. reflexivity.
  - destruct u as [|c u]; [rewrite replace_all_empty by exact nbspRe_nonempty; reflexivity|].
    rewrite (replace_all_miss _ _ _ _ E). specialize (Hs _ Hu). cbn [tagAt] in *.
    destruct (c =? lt_); [|reflexivity].
    destruct (afterGt (replace_all nbspRe (plain (str " ")) u)) as [r|] eqn:Er; [exfalso|reflexivity].
    assert (H : hasGt (replace_all nbspRe (plain (str " ")) u) = true)
      by (rewrite afterGt_hasGt, Er; reflexivity).
    apply hasGt_In, (replace_all_In nbspRe (str " ") nbspRe_nonempty) in H.
    destruct H as [H|H].
    + apply hasGt_In in H. rewrite afterGt_hasGt, Hs in H. discriminate.
    + cbv in H. intuition discriminate.
Qed.

Lemma afterGt_app (v q r : jsstring) : afterGt v = Some r -> afterGt (v ++ q) = Some (r ++ q).
Proof.
  induction v as [|c v IH]; simpl; [discriminate|].
  destruct (c =? gt_); [congruence|exact IH].
Qed.

Lemma startsWith_app_r (w v q r : jsstring) :
  startsWith w v = Some r -> startsWith w (v ++ q) = Some (r ++ q).
Proof.
  intros H. apply startsWith_Some in H. subst v. rewrite <- app_assoc.
  apply startsWith_app.
Qed.

Lemma notags_factor (pre v q : jsstring) : notags (pre ++ v ++ q) -> notags v.
Proof.
  intros H u [p ->].
  destruct (tagAt u) as [r|] eqn:E; [exfalso|reflexivity].
  assert (K : tagAt (u ++ q) = None)
    by (apply H; exists (pre ++ p); now rewrite <- !app_assoc).
  destruct u as [|c u]; simpl in *; [discriminate|].
  destruct (c =? lt_); [|discriminate].
  apply (afterGt_app u q) in E. congruence.
Qed.

Lemma nonbsp_factor (pre v q : jsstring) : nonbsp (pre ++ v ++ q) -> nonbsp v.
Proof.
  intros H u [p ->]. specialize (H (u ++ q)).
  destruct (startsWith nbsp u) as [r|] eqn:E; [|reflexivity].
  apply (startsWith_app_r nbsp u q) in E. rewrite H in E; [discriminate|].
  exists (pre ++ p). now rewrite <- !app_assoc.
Qed.

Lemma exec_rest_None_inv (re : RegExp) (s : jsstring) (f : jsstring -> option jsstring) :
  option_map rest (exec_at re s) = f s -> f s = None -> exec_at re s = None.
Proof. intros <-. destruct (exec_at re s); [discriminate|reflexivity]. Qed.

Lemma notags_fixed (t : list ritem) (s : jsstring) : notags s -> replace_all tagRe t s = s.
Proof.
  intros H. apply replace_all_id. intros u Hu.
  apply (exec_rest_None_inv tagRe u tagAt (exec_at_tag u)), H, Hu.
Qed.

Lemma nonbsp_fixed (t : list ritem) (s : jsstring) : nonbsp s -> replace_all nbspRe t s = s.
Proof.
  intros H. apply replace_all_id. intros u Hu.
  apply (exec_rest_None_inv nbspRe u (startsWith nbsp) (exec_at_nbsp u)), H, Hu.
Qed.

Lemma clean_notags (s : jsstring) : notags (clean s).
Proof.
  unfold clean.
  destruct (trim_factor (replace_all nbspRe (plain (str " ")) (replace_all tagRe (plain []) s)))
    as (pre & q & H).
  apply (notags_factor pre _ q). rewrite <- H. apply notags_decode, notags_strip.
Qed.

Lemma clean_nonbsp (s : jsstring) : nonbsp (clean s).
Proof.
  unfold clean.
  destruct (trim_factor (replace_all nbspRe (plain (str " ")) (replace_all tagRe (plain []) s)))
    as (pre & q & H).
  apply (nonbsp_factor pre _ q). rewrite <- H. apply nonbsp_decode.
Qed.

(** ** Labels *)

Lemma lang_avoids (ci : bool) (x : N) (r : regex) (w a : jsstring) (g g' : option jsstring) :
  lang ci r w a g g' -> avoids ci x r = true -> ~ In x w.
Proof.
  unfold not.
  induction 1; simpl; intros Hv Hin; try (apply andb_true_iff in Hv; destruct Hv); eauto.
  - destruct Hin as [->|[]]. rewrite H in Hv. discriminate.
  - apply in_app_or in Hin. destruct Hin; eauto.
  - rewrite Forall_forall in H. rewrite (H _ Hin) in Hv. discriminate.
Qed.

Lemma lang_ext (ci : bool) (r : regex) (w a : jsstring) (g g' : option jsstring) :
  lang ci r w a g g' -> eoiFree r = true -> forall a', lang ci r w a' g g'.
Proof.
  induction 1; simpl; intros He a'; try (apply andb_true_iff in He; destruct He);
    try discriminate; eauto with re.
Qed.

Lemma seq_prefix_exec (ci : bool) (l r : regex) (s : jsstring) (y : mstate) :
  exec_at (mkRegExp (Seq l r) ci) s = Some y ->
  exists y', exec_at (mkRegExp l ci) s = Some y'.
Proof.
  intros E. apply exec_at_sound in E. destruct E as (w & -> & _ & L).
  cbn [source ignoreCase] in L. inversion L; subst.
  rewrite <- app_assoc. eapply exec_at_complete. cbn [source ignoreCase]. eassumption.
Qed.

Lemma str_match_all_None (re : RegExp) (s : jsstring) :
  (forall u, suffix u s -> exec_at re u = None) -> str_match re s = None.
Proof.
  intros H. destruct (str_match re s) as [m|] eqn:E; [|reflexivity].
  apply str_match_Some in E. destruct E as (pre & u & y & -> & Hy & _).
  rewrite H in Hy; [discriminate|]. exists pre. reflexivity.
Qed.

(** Without its label a labelled pattern matches nowhere. *)
Lemma label_absent (l r : regex) (s : jsstring) :
  occurs l s = false -> str_match (mkRegExp (Seq l r) true) s = None.
Proof.
  unfold occurs. intros H. apply str_match_all_None. intros u Hu.
  destruct (exec_at (mkRegExp (Seq l r) true) u) as [y|] eqn:E; [|reflexivity].
  apply seq_prefix_exec in E. destruct E as [y' E].
  destruct (str_match_found _ _ _ _ Hu E) as [m Hm]. rewrite Hm in H. discriminate.
Qed.

(** Rewriting line breaks to newlines creates no label: the labels contain
    no newline. *)
Lemma label_normalize (l : regex) (content : jsstring) :
  avoids true LF l = true -> eoiFree l = true ->
  occurs l content = false -> occurs l (normalize content) = false.
Proof.
  intros Hv He H. unfold occurs in *.
  destruct (str_match (mkRegExp l true) (normalize content)) as [m|] eqn:E; [exfalso|reflexivity].
  apply str_match_Some in E. destruct E as (pre & v & y & Hn & Hy & _).
  assert (Hs : suffix v (normalize content)) by (exists pre; exact Hn).
  apply replace_all_suffix in Hs; [|exact brRe_nonempty|simpl; lia].
  destruct Hs as (u & Hu & Hvu).
  apply exec_at_sound in Hy. destruct Hy as (w & Hw & _ & L). cbn [source ignoreCase] in L.
  destruct (replace_all_prefix brRe LF w brRe_nonempty (lang_avoids _ _ _ _ _ _ _ L Hv) u (rest y))
    as [b' Hb]; [rewrite <- Hvu; exact Hw|].
  destruct (exec_at_complete (mkRegExp l true) w b' (group1 y)) as [y' Hy'].
  - cbn [source ignoreCase]. apply (lang_ext _ _ _ _ _ _ L He).
  - rewrite <- Hb in Hy'. destruct (str_match_found _ _ _ _ Hu Hy') as [m' Hm'].
    rewrite Hm' in H. discriminate.
Qed.

Lemma captured_None (re : RegExp) (s : jsstring) :
  str_match re s = None -> captured (str_match re s) = None.
Proof. intros ->. reflexivity. Qed.

Lemma field_default (l r : regex) (html : jsstring) :
  occurs l html = false -> field (mkRegExp (Seq l r) true) html = NA.
Proof.
  intros H. unfold field. now rewrite (label_absent l r html H).
Qed.

Lemma header_default (l r : regex) (content : jsstring) :
  avoids true LF l = true -> eoiFree l = true ->
  occurs l content = false ->
  captured (str_match (mkRegExp (Seq l r) true) (normalize content)) = None.
Proof.
  intros Hv He H. apply captured_None, label_absent, label_normalize; assumption.
Qed.

(** ** The shape of a header match *)

Lemma lang_groupFree (ci : bool) (r : regex) (w a : jsstring) (g g' : option jsstring) :
  lang ci r w a g g' -> groupFree r = true -> g' = g.
Proof.
  induction 1; simpl; intros Hg; try (apply andb_true_iff in Hg; destruct Hg);
    try discriminate; try reflexivity; auto.
  rewrite IHlang2, IHlang1; auto.
Qed.

Lemma canonicalize_small (x c : N) :
  x < 65 -> (canonicalize x =? canonicalize c) = true -> c = x.
Proof.
  unfold canonicalize. intros Hx H. apply N.eqb_eq in H.
  destruct ((97 <=? x) && (x <=? 122)) eqn:Ex.
  - apply andb_true_iff in Ex. destruct Ex as [Ex _]. apply N.leb_le in Ex. lia.
  - destruct ((97 <=? c) && (c <=? 122)) eqn:Ec; [|congruence].
    apply andb_true_iff in Ec. destruct Ec as [Ec _]. apply N.leb_le in Ec. lia.
Qed.

Lemma ciEq_app (a b c d : jsstring) :
  ciEq a b = true -> ciEq c d = true -> ciEq (a ++ c) (b ++ d) = true.
Proof.
  revert b. induction a as [|x a IH]; intros [|y b]; simpl; try discriminate; auto.
  intros H K. apply andb_true_iff in H. destruct H as [-> H]. simpl. auto.
Qed.

Lemma ciEq_length (a b : jsstring) : ciEq a b = true -> List.length a = List.length b.
Proof.
  revert b. induction a as [|x a IH]; intros [|y b]; simpl; try discriminate; auto.
  intros H. apply andb_true_iff in H. destruct H as [_ H]. auto.
Qed.

Lemma lang_lits (p : jsstring) :
  forall w a g g', lang true (lits p) w a g g' -> ciEq w p = true.
Proof.
  induction p as [|c p IH]; intros w a g g' L.
  - apply lang_Empty_inv in L. destruct L as [-> _]. reflexivity.
  - destruct p as [|c' p'].
    + apply lang_Char_inv in L. destruct L as (ch & -> & Hc & _).
      simpl in *. rewrite N.eqb_sym. now rewrite Hc.
    + change (lits (c :: c' :: p')) with (Seq (Char (CLit c)) (lits (c' :: p'))) in L.
      apply lang_Seq_inv in L. destruct L as (w1 & w2 & g1 & -> & L1 & L2).
      apply lang_Char_inv in L1. destruct L1 as (ch & -> & Hc & _).
      simpl in Hc. cbn [app ciEq]. rewrite N.eqb_sym, Hc.
      simpl. eapply IH. eassumption.
Qed.

Lemma lits_lang (p : jsstring) :
  forall w a g, ciEq w p = true -> lang true (lits p) w a g g.
Proof.
  induction p as [|c p IH]; intros w a g H.
  - destruct w; [constructor|discriminate].
  - destruct w as [|x w]; [discriminate|]. simpl in H.
    apply andb_true_iff in H. destruct H as [Hx Hw].
    assert (Hc : lang true (Char (CLit c)) [x] (w ++ a) g g)
      by (constructor; simpl; now rewrite N.eqb_sym).
    destruct p as [|c' p'].
    + destruct w; [|discriminate]. constructor. simpl. now rewrite N.eqb_sym.
    + change (lits (c :: c' :: p')) with (Seq (Char (CLit c)) (lits (c' :: p'))).
      change (x :: w) with ([x] ++ w). econstructor; [exact Hc|]. apply IH, Hw.
Qed.

Lemma lang_lineEnd (w post : jsstring) (g g' : option jsstring) :
  lang true lineEnd w post g g' -> lineEnds (w ++ post) = true.
Proof.
  unfold lineEnd, Opt. intros L. apply lang_Alt_inv in L. destruct L as [L|L].
  - apply lang_Seq_inv in L. destruct L as (w1 & w2 & g1 & -> & L1 & L2).
    apply lang_Char_inv in L2. destruct L2 as (ch & -> & Hc & _).
    simpl in Hc. apply (canonicalize_small LF ch) in Hc; [|reflexivity]. subst ch.
    apply lang_Alt_inv in L1. destruct L1 as [L1|L1].
    + apply lang_Char_inv in L1. destruct L1 as (ch & -> & Hc & _).
      simpl in Hc. apply (canonicalize_small CR ch) in Hc; [|reflexivity]. subst ch.
      reflexivity.
    + apply lang_Empty_inv in L1. destruct L1 as [-> _]. reflexivity.
  - apply lang_Eoi_inv in L. destruct L as (-> & -> & _). reflexivity.
Qed.

Lemma lineEnd_lang (post : jsstring) (g : option jsstring) :
  lineEnds post = true ->
  exists w a, post = w ++ a /\ lang true lineEnd w a g g.
Proof.
  unfold lineEnd, Opt. destruct post as [|c t]; simpl; intros H.
  - exists [], []. split; [reflexivity|]. apply L_AltR. constructor.
  - apply orb_true_iff in H. destruct H as [H|H].
    + apply N.eqb_eq in H. subst c. exists [LF], t. split; [reflexivity|].
      apply L_AltL. change [LF] with ([] ++ [LF]).
      econstructor; [apply L_AltR; constructor|constructor; reflexivity].
    + apply andb_true_iff in H. destruct H as [Hc Hd]. apply N.eqb_eq in Hc. subst c.
      destruct t as [|d t]; [discriminate|]. apply N.eqb_eq in Hd. subst d.
      exists [CR; LF], t. split; [reflexivity|].
      apply L_AltL. change [CR; LF] with ([CR] ++ [LF]).
      econstructor; [apply L_AltL; constructor; reflexivity|constructor; reflexivity].
Qed.

Lemma header_sound (label : regex) (u : jsstring) (y : mstate) :
  exec_at (headerRe label) u = Some y ->
  exists lbl ws raw post,
    u = lbl ++ ws ++ raw ++ post
    /\ (exists g, lang true label lbl (ws ++ raw ++ post) None g)
    /\ forallb isSpace ws = true
    /\ forallb notTerminator raw = true
    /\ lineEnds post = true
    /\ group1 y = Some raw.
Proof.
  intros E. apply exec_at_sound in E. destruct E as (w & Hu & _ & L).
  cbn [headerRe source ignoreCase seqs] in L.
  apply lang_Seq_inv in L. destruct L as (lbl & w1 & g1 & -> & Ll & L).
  apply lang_Seq_inv in L. destruct L as (ws & w2 & g2 & -> & Lw & L).
  apply lang_Seq_inv in L. destruct L as (raw & w3 & g3 & -> & Lr & Le).
  apply lang_Star_inv in Lw. destruct Lw as [Hws _].
  apply lang_Group_inv in Lr. destruct Lr as [[g0 Lr] ->].
  apply lang_Star_inv in Lr. destruct Lr as [Hraw _].
  pose proof (lang_groupFree _ _ _ _ _ _ Le eq_refl) as Hg.
  exists lbl, ws, raw, (w3 ++ rest y). repeat split.
  - rewrite Hu, <- !app_assoc. reflexivity.
  - exists g1. rewrite <- !app_assoc in Ll. exact Ll.
  - exact Hws.
  - exact Hraw.
  - eapply lang_lineEnd. eassumption.
  - exact Hg.
Qed.

Lemma header_complete (label : regex) (lbl ws raw post : jsstring) (g : option jsstring) :
  lang true label lbl (ws ++ raw ++ post) None g ->
  forallb isSpace ws = true -> forallb notTerminator raw = true ->
  lineEnds post = true ->
  exists y, exec_at (headerRe label) (lbl ++ ws ++ raw ++ post) = Some y.
Proof.
  intros Ll Hws Hraw Hpost.
  destruct (lineEnd_lang post (Some raw) Hpost) as (w & a & -> & Le).
  replace (lbl ++ ws ++ raw ++ w ++ a) with ((lbl ++ ws ++ raw ++ w) ++ a)
    by (rewrite <- !app_assoc; reflexivity).
  eapply exec_at_complete. cbn [headerRe source ignoreCase seqs].
  econstructor; [rewrite <- !app_assoc; exact Ll|].
  econstructor; [apply lang_Star_intro; exact Hws|].
  econstructor; [|exact Le].
  apply L_Group with (g' := g). apply lang_Star_intro. exact Hraw.
Qed.

Lemma ciEq_app_inv (x p q : jsstring) :
  ciEq x (p ++ q) = true ->
  exists x1 x2, x = x1 ++ x2 /\ ciEq x1 p = true /\ ciEq x2 q = true.
Proof.
  revert x. induction p as [|c p IH]; intros x H.
  - exists [], x. auto.
  - destruct x as [|d x]; [discriminate|]. simpl in H.
    apply andb_true_iff in H. destruct H as [Hd H].
    destruct (IH x H) as (x1 & x2 & -> & H1 & H2).
    exists (d :: x1), x2. simpl. rewrite Hd, H1. auto.
Qed.

Lemma fromLabel_sound (lbl a : jsstring) (g g' : option jsstring) :
  lang true fromLabel lbl a g g' -> existsb (ciEq lbl) fromLabels = true.
Proof.
  unfold fromLabel, C, lit. intros L.
  apply lang_Seq_inv in L. destruct L as (w1 & w2 & g1 & -> & L1 & L2).
  apply (lang_lits [chr ":"]) in L2.
  apply lang_Alt_inv in L1. cbn [fromLabels existsb].
  destruct L1 as [L1|L1]; apply lang_lits in L1.
  - change (str "Dari:") with (str "Dari" ++ [chr ":"]).
    rewrite (ciEq_app _ _ _ _ L1 L2). reflexivity.
  - change (str "From:") with (str "From" ++ [chr ":"]).
    rewrite (ciEq_app _ _ _ _ L1 L2). apply orb_true_r.
Qed.

Lemma fromLabel_complete (lbl a : jsstring) (g : option jsstring) :
  existsb (ciEq lbl) fromLabels = true -> lang true fromLabel lbl a g g.
Proof.
  unfold fromLabel, C, lit. cbn [fromLabels existsb]. rewrite orb_false_r.
  intros H. apply orb_true_iff in H. destruct H as [H|H].
  - change (str "Dari:") with (str "Dari" ++ [chr ":"]) in H.
    apply ciEq_app_inv in H. destruct H as (x1 & x2 & -> & H1 & H2).
    econstructor; [apply L_AltL, lits_lang, H1|apply (lits_lang [chr ":"]), H2].
  - change (str "From:") with (str "From" ++ [chr ":"]) in H.
    apply ciEq_app_inv in H. destruct H as (x1 & x2 & -> & H1 & H2).
    econstructor; [apply L_AltR, lits_lang, H1|apply (lits_lang [chr ":"]), H2].
Qed.

Lemma captured_Some (re : RegExp) (s raw : jsstring) :
  captured (str_match re s) = Some raw ->
  raw <> [] /\ exists m, str_match re s = Some m /\ capture m = Some raw.
Proof.
  unfold captured. destruct (str_match re s) as [m|]; [|discriminate].
  destruct (capture m) as [g|] eqn:Ec; [|discriminate].
  destruct g as [|c g]; simpl; [discriminate|].
  intros H. injection H as <-. split; [discriminate|]. exists m. auto.
Qed.

Lemma app_split_left (pre u pre' u' : jsstring) :
  pre ++ u = pre' ++ u' -> (List.length pre' < List.length pre)%nat ->
  exists q, pre = pre' ++ q /\ q <> [] /\ u' = q ++ u.
Proof.
  intros H Hlt. apply app_eq_app in H. destruct H as [l [[H1 H2]|[H1 H2]]].
  - exists l. repeat split; auto. intros ->. rewrite app_nil_r in H1.
    subst. lia.
  - subst pre'. rewrite length_app in Hlt. lia.
Qed.


(** ** The e-mail address pattern *)

Lemma cmatch_local (c : N) : cmatch false localClass c = isLocalChar c.
Proof.
  unfold isLocalChar, isAlnum. cbn. rewrite !(N.eqb_sym c), !orb_assoc. reflexivity.
Qed.

Lemma cmatch_domain (c : N) : cmatch false domainClass c = isDomainChar c.
Proof.
  unfold isDomainChar, isAlnum. cbn. rewrite !(N.eqb_sym c), !orb_assoc. reflexivity.
Qed.

Lemma cmatch_letter (c : N) : cmatch false letterClass c = isLetter c.
Proof. reflexivity. Qed.

Lemma forallb_eq (f h : N -> bool) (w : jsstring) :
  (forall c, f c = h c) -> forallb f w = forallb h w.
Proof. intros H. induction w as [|c w IH]; simpl; [reflexivity|]. now rewrite H, IH. Qed.

Lemma lang_Plus_inv (k : cclass) (w a : jsstring) (g g' : option jsstring) :
  lang false (Plus k) w a g g' -> w <> [] /\ forallb (cmatch false k) w = true /\ g' = g.
Proof.
  unfold Plus. intros L.
  apply lang_Seq_inv in L. destruct L as (w1 & w2 & g1 & -> & L1 & L2).
  apply lang_Char_inv in L1. destruct L1 as (ch & -> & Hc & ->).
  apply lang_Star_inv in L2. destruct L2 as [Hw ->].
  simpl. rewrite Hc, Hw. repeat split. discriminate.
Qed.

Lemma lang_Plus_intro (k : cclass) (w a : jsstring) (g : option jsstring) :
  w <> [] -> forallb (cmatch false k) w = true -> lang false (Plus k) w a g g.
Proof.
  unfold Plus. destruct w as [|c w]; [intros H; now elim H|]. intros _ H.
  simpl in H. apply andb_true_iff in H. destruct H as [Hc Hw].
  change (c :: w) with ([c] ++ w).
  econstructor; [constructor; exact Hc|apply lang_Star_intro, Hw].
Qed.

Lemma lang_lit1 (x : N) (w a : jsstring) (g g' : option jsstring) :
  lang false (Char (CLit x)) w a g g' -> w = [x] /\ g' = g.
Proof.
  intros L. apply lang_Char_inv in L. destruct L as (ch & -> & Hc & ->).
  simpl in Hc. apply N.eqb_eq in Hc. subst. auto.
Qed.

Lemma email_sound (e a : jsstring) (g g' : option jsstring) :
  lang false (source emailRe) e a g g' -> emailShaped e /\ g' = Some e.
Proof.
  cbn [source emailRe seqs]. unfold AtLeast2, C. intros L.
  apply lang_Group_inv in L. destruct L as [[g0 L] ->]. split; [|reflexivity].
  apply lang_Seq_inv in L. destruct L as (l & w2 & g1 & -> & Ll & L).
  apply lang_Seq_inv in L. destruct L as (at_ & w3 & g2 & -> & La & L).
  apply lang_Seq_inv in L. destruct L as (d & w4 & g3 & -> & Ld & L).
  apply lang_Seq_inv in L. destruct L as (dot & t & g4 & -> & Lp & L).
  apply lang_Seq_inv in L. destruct L as (t1 & t2 & g5 & -> & L1 & L2).
  apply lang_Plus_inv in Ll. destruct Ll as (Hl & Fl & _).
  apply lang_Plus_inv in Ld. destruct Ld as (Hd & Fd & _).
  apply lang_Plus_inv in L2. destruct L2 as (Ht & Ft & _).
  apply lang_lit1 in La. destruct La as [-> _].
  apply lang_lit1 in Lp. destruct Lp as [-> _].
  apply lang_Char_inv in L1. destruct L1 as (c1 & -> & Hc1 & _).
  exists l, d, (c1 :: t2). repeat split; auto.
  - rewrite <- (forallb_eq _ _ l cmatch_local). exact Fl.
  - rewrite <- (forallb_eq _ _ d cmatch_domain). exact Fd.
  - destruct t2; [now elim Ht|simpl; lia].
  - simpl. rewrite <- cmatch_letter, Hc1. exact Ft.
Qed.

Lemma email_complete (e a : jsstring) (g : option jsstring) :
  emailShaped e -> lang false (source emailRe) e a g (Some e).
Proof.
  intros (l & d & t & -> & Hl & Fl & Hd & Fd & Ht & Ft).
  cbn [source emailRe seqs]. unfold AtLeast2, C.
  apply L_Group with (g' := g).
  destruct t as [|c1 [|c2 t]]; try (simpl in Ht; lia).
  simpl in Ft. apply andb_true_iff in Ft. destruct Ft as [F1 Ft].
  econstructor.
  { apply lang_Plus_intro; [exact Hl|].
    rewrite (forallb_eq _ _ l cmatch_local). exact Fl. }
  change (chr "@" :: d ++ chr "." :: c1 :: c2 :: t)
    with ([chr "@"] ++ d ++ [chr "."] ++ [c1] ++ c2 :: t).
  econstructor; [constructor; apply N.eqb_refl|].
  econstructor.
  { apply lang_Plus_intro; [exact Hd|].
    rewrite (forallb_eq _ _ d cmatch_domain). exact Fd. }
  econstructor; [constructor; apply N.eqb_refl|].
  econstructor; [constructor; exact F1|].
  apply lang_Plus_intro; [discriminate|exact Ft].
Qed.

(** The address taken from a raw sender text that holds one: it is the
    leftmost place where an address starts. *)
Lemma senderOf_email (raw : jsstring) :
  (exists pre e post, raw = pre ++ e ++ post /\ emailShaped e) ->
  exists pre' e' post',
    raw = pre' ++ e' ++ post' /\ emailShaped e' /\ senderOf raw = e'
    /\ forall pre2 e2 post2,
         raw = pre2 ++ e2 ++ post2 -> emailShaped e2 ->
         (List.length pre' <= List.length pre2)%nat.
Proof.
  intros (pre & e & post & Hraw & He).
  destruct (exec_at_complete emailRe e post (Some e) (email_complete e post None He)) as [y0 Hy0].
  destruct (str_match_found emailRe raw (e ++ post) y0) as [m Hm];
    [exists pre; exact Hraw|exact Hy0|].
  unfold senderOf. rewrite Hm.
  apply str_match_Some in Hm. destruct Hm as (pre' & u & y & Hu & Hy & -> & Hleft).
  destruct (exec_at_sound _ _ _ Hy) as (w & Hw & _ & L).
  apply email_sound in L. destruct L as [Hshape Hg]. cbn [ignoreCase emailRe] in Hg.
  exists pre', w, (rest y). cbn [capture]. rewrite Hg. repeat split; auto.
  - rewrite Hu, Hw. reflexivity.
  - intros pre2 e2 post2 H2 He2.
    destruct (Nat.le_gt_cases (List.length pre') (List.length pre2)) as [|Hlt]; [assumption|].
    exfalso. rewrite Hu in H2.
    destruct (app_split_left _ _ _ _ H2 Hlt) as (q & Hq & Hqne & Hu2).
    specialize (Hleft pre2 q Hq Hqne). rewrite <- Hu2 in Hleft.
    destruct (exec_at_complete emailRe e2 post2 (Some e2) (email_complete e2 post2 None He2))
      as [y2 Hy2].
    rewrite Hy2 in Hleft. discriminate.
Qed.

(** ** Stepping through the card-suffix pattern *)

Lemma digit_not_space (d : N) : isDigit d = true -> isSpace d = false.
Proof.
  unfold isDigit. intros H. apply andb_true_iff in H. destruct H as [H1 H2].
  apply N.leb_le in H1, H2.
  unfold isSpace, isWhiteSpace, isLineTerminator.
  repeat match goal with |- context [?a =? ?b] => destruct (N.eqb_spec a b); [lia|] end.
  destruct (N.leb_spec 8192 d); [lia|]. reflexivity.
Qed.

Lemma starGreedy_stop (ci : bool) (k : cclass) (kont : cont) (c : N) (s tk : jsstring)
      (g : option jsstring) :
  cmatch ci k c = false ->
  starGreedy ci k kont (c :: s) tk g = kont (MState (c :: s) tk g).
Proof. intros H. simpl. now rewrite H. Qed.






Lemma plain_headOk (w : jsstring) : forallb plainChar w = true -> headOk w = true.
Proof.
  destruct w as [|c w]; simpl; [reflexivity|]. unfold plainChar. intros H.
  apply andb_true_iff in H. destruct H as [H _].
  apply andb_true_iff in H. tauto.
Qed.

Lemma plain_rev (w : jsstring) : forallb plainChar w = true -> forallb plainChar (rev w) = true.
Proof.
  rewrite !forallb_forall. intros H c Hc. apply H. apply in_rev. exact Hc.
Qed.

Lemma plain_suffix (u w : jsstring) :
  suffix u w -> forallb plainChar w = true -> forallb plainChar u = true.
Proof.
  intros [pre ->]. rewrite forallb_app. intros H. apply andb_true_iff in H. tauto.
Qed.

Lemma clean_plain (w : jsstring) : forallb plainChar w = true -> clean w = w.
Proof.
  intros H. unfold clean. rewrite notags_fixed, nonbsp_fixed.
  - unfold trim, trimEnd. rewrite (headOk_trimStart w (plain_headOk w H)).
    rewrite (headOk_trimStart (rev w) (plain_headOk _ (plain_rev w H))).
    apply rev_involutive.
  - intros u Hu. pose proof (plain_suffix u w Hu H) as Hp.
    destruct u as [|c u]; [reflexivity|]. simpl in Hp. unfold plainChar in Hp.
    apply andb_true_iff in Hp. destruct Hp as [Hp _].
    apply andb_true_iff in Hp. destruct Hp as [Hp _].
    apply andb_true_iff in Hp. destruct Hp as [_ Hp].
    apply negb_true_iff in Hp. unfold nbsp.
    change (str "&nbsp;") with (chr "&" :: str "nbsp;"). cbn [startsWith].
    rewrite N.eqb_sym, Hp. reflexivity.
  - intros u Hu. pose proof (plain_suffix u w Hu H) as Hp.
    destruct u as [|c u]; [reflexivity|]. simpl in Hp. unfold plainChar in Hp.
    apply andb_true_iff in Hp. destruct Hp as [Hp _].
    apply andb_true_iff in Hp. destruct Hp as [Hp _].
    apply andb_true_iff in Hp. destruct Hp as [Hp _].
    apply negb_true_iff in Hp. cbn [tagAt]. rewrite Hp. reflexivity.
Qed.

Lemma digit_plain (d : N) : isDigit d = true -> plainChar d = true.
Proof.
  intros H. unfold plainChar. rewrite (digit_not_space d H).
  unfold isDigit in H. apply andb_true_iff in H. destruct H as [H1 H2].
  apply N.leb_le in H1, H2.
  destruct (N.eqb_spec d lt_) as [E|_];
    [exfalso; rewrite E in H2; vm_compute in H2; apply H2; reflexivity|].
  destruct (N.eqb_spec d (chr "&")) as [E|_];
    [exfalso; rewrite E in H1; vm_compute in H1; apply H1; reflexivity|].
  reflexivity.
Qed.

Lemma parseTransactionDetails_fields (html : jsstring) :
  parseTransactionDetails html
  = mkTransactionDetails (field kartuRe html) (field merchantRe html)
                         (field tanggalRe html) (field nominalRe html).
Proof. destruct html; [vm_compute|]; reflexivity. Qed.

Lemma presence (re : RegExp) (f : jsstring -> jsstring) (s : jsstring) (m : MatchResult) :
  str_match re s = Some m ->
  (capture m = Some [] -> option_map f (captured (str_match re s)) = None)
  /\ (forall raw, capture m = Some raw -> raw <> [] ->
                  option_map f (captured (str_match re s)) = Some (f raw)).
Proof.
  intros ->. unfold captured. split.
  - intros ->. reflexivity.
  - intros raw -> Hne. destruct raw as [|c raw]; [now elim Hne|reflexivity].
Qed.

(** ** Whitespace after a header label

    The whitespace after the label is taken greedily before the capture
    starts, so a captured header value never starts with whitespace; where
    only whitespace follows the label the capture is empty. *)

Lemma spacesRe_nonempty : nonempty_matches spacesRe.
Proof. apply consumes_nonempty. reflexivity. Qed.

Lemma emailShaped_at (e : jsstring) : emailShaped e -> In (chr "@") e.
Proof.
  intros (l & d & t & -> & _). apply in_or_app. right. left. reflexivity.
Qed.

Lemma matcher_Seq (ci : bool) (r1 r2 : regex) (kont : cont) (x : mstate) :
  matcher ci (Seq r1 r2) kont x = matcher ci r1 (matcher ci r2 kont) x.
Proof. reflexivity. Qed.

Lemma matcher_Star_greedy (ci : bool) (k : cclass) (kont : cont) (x : mstate) :
  matcher ci (Star true k) kont x = starGreedy ci k kont (rest x) (taken x) (group1 x).
Proof. reflexivity. Qed.

Lemma captured_exec (re : RegExp) (s raw : jsstring) :
  captured (str_match re s) = Some raw ->
  raw <> [] /\ exists pre u y,
    s = pre ++ u /\ exec_at re u = Some y /\ group1 y = Some raw.
Proof.
  intros H. apply captured_Some in H. destruct H as (Hne & m & Hm & Hc).
  apply str_match_Some in Hm. destruct Hm as (pre & u & y & Hs & Hy & -> & _).
  split; [exact Hne|]. exists pre, u, y. auto.
Qed.

(** The line-break pattern fails at a character other than [<]. *)
Lemma br_miss (c : N) (s : jsstring) : c <> lt_ -> exec_at brRe (c :: s) = None.
Proof.
  intros Hc. destruct (exec_at brRe (c :: s)) as [y|] eqn:E; [exfalso|reflexivity].
  apply exec_at_sound in E. destruct E as (w & Hw & _ & L).
  cbn [brRe source ignoreCase seqs] in L.
  apply lang_Seq_inv in L. destruct L as (w1 & w2 & g1 & -> & L1 & _).
  apply lang_lits in L1. change (str "<br") with (lt_ :: str "br") in L1.
  destruct w1 as [|d w1]; [discriminate|]. simpl in L1, Hw.
  injection Hw as -> _. apply andb_true_iff in L1. destruct L1 as [L1 _].
  rewrite N.eqb_sym in L1. apply (canonicalize_small lt_ d) in L1; [|reflexivity].
  contradiction.
Qed.

Lemma normalize_copy (a s : jsstring) :
  ~ In lt_ a -> normalize (a ++ s) = a ++ normalize s.
Proof.
  unfold normalize. induction a as [|c a IH]; intros H; [reflexivity|].
  cbn [app]. rewrite replace_all_miss.
  - f_equal. apply IH. intros K. apply H. right. exact K.
  - apply br_miss. intros ->. apply H. left. reflexivity.
Qed.

Lemma normalize_plain (s : jsstring) : ~ In lt_ s -> normalize s = s.
Proof.
  intros H. pose proof (normalize_copy s [] H) as K. rewrite app_nil_r in K.
  rewrite K. unfold normalize. rewrite (replace_all_empty _ _ brRe_nonempty).
  apply app_nil_r.
Qed.

(** Where the greedy star fails, the continuation fails after every run. *)
Lemma starGreedy_none (ci : bool) (k : cclass) (kont : cont) (s tk : jsstring)
      (g : option jsstring) :
  starGreedy ci k kont s tk g = None ->
  forall w a, s = w ++ a -> forallb (cmatch ci k) w = true ->
              kont (MState a (rev w ++ tk) g) = None.
Proof.
  intros H w a -> Hw. destruct (kont (MState a (rev w ++ tk) g)) as [z|] eqn:E; [|reflexivity].
  destruct (starGreedy_complete ci k kont w a tk g z) as [z' Hz]; [|exact E|congruence].
  apply Forall_forall. apply forallb_forall. exact Hw.
Qed.

(** The greedy star returns the result of the longest run that the
    continuation accepts: after every longer run the continuation fails. *)
Lemma starGreedy_max (ci : bool) (k : cclass) (kont : cont) (s : jsstring) :
  forall tk g z,
    starGreedy ci k kont s tk g = Some z ->
    exists w a,
      s = w ++ a /\ forallb (cmatch ci k) w = true
      /\ kont (MState a (rev w ++ tk) g) = Some z
      /\ forall w3 a3, a = w3 ++ a3 -> w3 <> [] -> forallb (cmatch ci k) w3 = true ->
                       kont (MState a3 (rev w3 ++ rev w ++ tk) g) = None.
Proof.
  induction s as [|ch s IH]; intros tk g z H; simpl in H.
  - exists [], []. repeat split; auto.
    intros w3 a3 E Hne. symmetry in E. apply app_eq_nil in E. tauto.
  - destruct (cmatch ci k ch) eqn:Ec.
    + destruct (starGreedy ci k kont s (ch :: tk) g) as [z1|] eqn:E1; simpl in H.
      * injection H as <-. apply IH in E1. destruct E1 as (w & a & -> & Hw & Hk & Hmax).
        exists (ch :: w), a. split; [reflexivity|].
        split; [simpl; rewrite Ec; exact Hw|].
        split; [simpl; rewrite <- app_assoc; exact Hk|].
        intros w3 a3 E Hne H3. specialize (Hmax w3 a3 E Hne H3).
        simpl. rewrite <- app_assoc. exact Hmax.
      * exists [], (ch :: s). repeat split; auto.
        intros w3 a3 E Hne H3. destruct w3 as [|c3 w3]; [now elim Hne|].
        simpl in E. injection E as <- E. simpl in H3.
        apply andb_true_iff in H3. destruct H3 as [_ H3].
        simpl. rewrite <- app_assoc.
        exact (starGreedy_none ci k kont s (ch :: tk) g E1 w3 a3 E H3).
    + exists [], (ch :: s). repeat split; auto.
      intros w3 a3 E Hne H3. destruct w3 as [|c3 w3]; [now elim Hne|].
      simpl in E. injection E as <- _. simpl in H3. rewrite Ec in H3. discriminate.
Qed.

(** A captured header value does not start with whitespace: were its first
    character whitespace, the greedy [\s*] would have taken it, since the
    rest of the pattern matches after it as well. *)
Lemma header_capture_head (label : regex) (u : jsstring) (y : mstate) (raw : jsstring) :
  exec_at (headerRe label) u = Some y -> group1 y = Some raw -> headOk raw = true.
Proof.
  unfold exec_at. cbn [headerRe source ignoreCase seqs]. intros H Hg.
  rewrite matcher_Seq in H. apply matcher_sound in H.
  destruct H as (w1 & a1 & g1 & _ & _ & H).
  rewrite matcher_Seq, matcher_Star_greedy in H. cbn [rest taken group1] in H.
  apply starGreedy_max in H. destruct H as (w2 & a2 & _ & _ & Hk & Hmax).
  apply matcher_sound in Hk. cbn [rest taken group1] in Hk.
  destruct Hk as (w & a & g' & Ha & L & Hy). injection Hy as <-. cbn [group1] in Hg.
  apply lang_Seq_inv in L. destruct L as (wr & t & gm & -> & Lr & Le).
  apply lang_Group_inv in Lr. destruct Lr as [[g0 Lr] ->].
  apply lang_Star_inv in Lr. destruct Lr as [Hraw _].
  pose proof (lang_groupFree _ _ _ _ _ _ Le eq_refl) as Hgf.
  assert (wr = raw) by congruence. subst wr g'.
  destruct raw as [|c raw]; [reflexivity|]. cbn [headOk].
  destruct (isSpace c) eqn:Ec; [exfalso|reflexivity].
  simpl in Hraw. apply andb_true_iff in Hraw. destruct Hraw as [_ Hraw].
  apply lang_lineEnd in Le.
  destruct (lineEnd_lang (t ++ a) (Some raw) Le) as (t' & a' & Et & Le').
  assert (L : lang true (Seq (Group (Star false CDot)) lineEnd) (raw ++ t') a' g1 (Some raw)).
  { econstructor; [|exact Le'].
    apply L_Group with (g' := g1). apply lang_Star_intro. exact Hraw. }
  assert (Hz : forall tk, exists z',
               matcher true (Seq (Group (Star false CDot)) lineEnd) (fun y => Some y)
                       (MState ((raw ++ t') ++ a') tk g1) = Some z').
  { intros tk. eapply (matcher_complete true _ _ _ _ _ L). reflexivity. }
  assert (Hs : a2 = [c] ++ (raw ++ t') ++ a')
    by (rewrite Ha, <- !app_assoc, Et; reflexivity).
  assert (Hc : forallb (cmatch true CSpace) [c] = true)
    by (simpl; rewrite Ec; reflexivity).
  specialize (Hmax [c] ((raw ++ t') ++ a') Hs ltac:(discriminate) Hc).
  match type of Hmax with
  | matcher _ _ _ (MState _ ?tk _) = None => destruct (Hz tk) as [z' Hz']
  end.
  rewrite Hz' in Hmax. discriminate.
Qed.

Lemma captured_headOk (label : regex) (s raw : jsstring) :
  captured (str_match (headerRe label) s) = Some raw -> headOk raw = true.
Proof.
  intros H. apply captured_exec in H. destruct H as (_ & pre & u & y & _ & Hy & Hg).
  exact (header_capture_head label u y raw Hy Hg).
Qed.

(** A character that occurs once in a string splits it in one way only. *)
Lemma split_at_unique (c : N) (a b a' b' : jsstring) :
  a ++ c :: b = a' ++ c :: b' -> ~ In c a' -> ~ In c b' -> a = a' /\ b = b'.
Proof.
  revert a'. induction a as [|x a IH]; intros [|x' a'] H Ha Hb; simpl in H.
  - injection H as ->. auto.
  - injection H as <- _. elim Ha. left. reflexivity.
  - injection H as -> <-. elim Hb. apply in_or_app. right. left. reflexivity.
  - injection H as <- H. destruct (IH a' H) as [-> ->]; auto.
    intros K. apply Ha. right. exact K.
Qed.

Lemma ciEq_In (x p : jsstring) (c : N) :
  ciEq x p = true -> In c x ->
  exists d, In d p /\ (canonicalize c =? canonicalize d) = true.
Proof.
  revert p. induction x as [|e x IH]; intros [|d p] H Hc; simpl in *;
    try discriminate; try contradiction.
  apply andb_true_iff in H. destruct H as [He H]. destruct Hc as [-> | Hc].
  - exists d. auto.
  - destruct (IH p H Hc) as (d' & Hd' & K). exists d'. auto.
Qed.

(** A character below [A] occurs in a word only if it occurs in the word
    it equals up to letter case. *)
Lemma ciEq_small_In (x p : jsstring) (c : N) :
  c < 65 -> ciEq x p = true -> In c x -> In c p.
Proof.
  intros Hc H Hx. destruct (ciEq_In x p c H Hx) as (d & Hd & K).
  apply (canonicalize_small c d Hc) in K. subst d. exact Hd.
Qed.

(** Each header label ends with its only colon and holds no [<]. *)
Lemma headerLabels_shape (lbl : jsstring) :
  existsb (ciEq lbl) headerLabels = true ->
  (exists b, lbl = b ++ [colon] /\ ~ In colon b) /\ ~ In lt_ lbl.
Proof.
  intros H. apply existsb_exists in H. destruct H as (L & HL & H).
  assert (K : exists b, L = b ++ [colon] /\ ~ In colon b /\ ~ In lt_ L).
  { cbn [headerLabels fromLabels subjectLabels dateLabels app In] in HL.
    destruct HL as [<-|[<-|[<-|[<-|[<-|[<-|[]]]]]]];
      [exists (str "Dari")|exists (str "From")|exists (str "Subject")
       |exists (str "Date")|exists (str "Tanggal")|exists (str "Sent")];
      (split; [reflexivity|]); split; vm_compute; intuition discriminate. }
  destruct K as (b & -> & Hb & Hlt). split.
  - apply ciEq_app_inv in H. destruct H as (x1 & x2 & -> & H1 & H2).
    destruct x2 as [|c x2]; [discriminate|]. simpl in H2.
    apply andb_true_iff in H2. destruct H2 as [H2 H3].
    destruct x2 as [|c' x2]; [|simpl in H3; discriminate]. rewrite N.eqb_sym in H2.
    apply (canonicalize_small colon c) in H2; [|reflexivity]. subst c.
    exists x1. split; [reflexivity|]. intros K. apply Hb.
    apply (ciEq_small_In x1 b colon); [reflexivity|exact H1|exact K].
  - intros K. apply Hlt. apply (ciEq_small_In lbl (b ++ [colon]) lt_); [reflexivity|exact H|exact K].
Qed.

Lemma blank_no (c : N) (ws : jsstring) :
  isSpace c = false -> forallb isSpace ws = true -> ~ In c ws.
Proof.
  intros Hc H K. rewrite forallb_forall in H. rewrite (H c K) in Hc. discriminate.
Qed.

Lemma subjectLabel_sound (lbl a : jsstring) (g g' : option jsstring) :
  lang true subjectLabel lbl a g g' -> existsb (ciEq lbl) subjectLabels = true.
Proof.
  unfold subjectLabel, lit. intros L. apply lang_lits in L.
  cbn [subjectLabels existsb]. rewrite L. reflexivity.
Qed.

Lemma subjectLabel_complete (lbl a : jsstring) (g : option jsstring) :
  existsb (ciEq lbl) subjectLabels = true -> lang true subjectLabel lbl a g g.
Proof.
  unfold subjectLabel, lit. cbn [subjectLabels existsb]. rewrite orb_false_r.
  apply lits_lang.
Qed.

Lemma dateLabel_sound (lbl a : jsstring) (g g' : option jsstring) :
  lang true dateLabel lbl a g g' -> existsb (ciEq lbl) dateLabels = true.
Proof.
  unfold dateLabel, C, lit. cbn [alts]. intros L.
  apply lang_Seq_inv in L. destruct L as (w1 & w2 & g1 & -> & L1 & L2).
  apply (lang_lits [chr ":"]) in L2. cbn [dateLabels existsb].
  apply lang_Alt_inv in L1. destruct L1 as [L1|L1].
  { apply lang_lits in L1. change (str "Date:") with (str "Date" ++ [chr ":"]).
    rewrite (ciEq_app _ _ _ _ L1 L2). reflexivity. }
  apply lang_Alt_inv in L1. destruct L1 as [L1|L1]; apply lang_lits in L1.
  - change (str "Tanggal:") with (str "Tanggal" ++ [chr ":"]).
    rewrite (ciEq_app _ _ _ _ L1 L2). apply orb_true_iff. right. reflexivity.
  - change (str "Sent:") with (str "Sent" ++ [chr ":"]).
    rewrite (ciEq_app _ _ _ _ L1 L2). rewrite !orb_true_r. reflexivity.
Qed.

Lemma dateLabel_complete (lbl a : jsstring) (g : option jsstring) :
  existsb (ciEq lbl) dateLabels = true -> lang true dateLabel lbl a g g.
Proof.
  unfold dateLabel, C, lit. cbn [alts dateLabels existsb]. rewrite orb_false_r.
  intros H. apply orb_true_iff in H. destruct H as [H|H].
  { change (str "Date:") with (str "Date" ++ [chr ":"]) in H.
    apply ciEq_app_inv in H. destruct H as (x1 & x2 & -> & H1 & H2).
    econstructor; [apply L_AltL, lits_lang, H1|apply (lits_lang [chr ":"]), H2]. }
  apply orb_true_iff in H. destruct H as [H|H].
  - change (str "Tanggal:") with (str "Tanggal" ++ [chr ":"]) in H.
    apply ciEq_app_inv in H. destruct H as (x1 & x2 & -> & H1 & H2).
    econstructor; [apply L_AltR, L_AltL, lits_lang, H1|apply (lits_lang [chr ":"]), H2].
  - change (str "Sent:") with (str "Sent" ++ [chr ":"]) in H.
    apply ciEq_app_inv in H. destruct H as (x1 & x2 & -> & H1 & H2).
    econstructor; [apply L_AltR, L_AltR, lits_lang, H1|apply (lits_lang [chr ":"]), H2].
Qed.

Lemma headerLabels_from (lbl : jsstring) :
  existsb (ciEq lbl) fromLabels = true -> existsb (ciEq lbl) headerLabels = true.
Proof. unfold headerLabels. rewrite existsb_app. intros ->. reflexivity. Qed.

Lemma headerLabels_subject (lbl : jsstring) :
  existsb (ciEq lbl) subjectLabels = true -> existsb (ciEq lbl) headerLabels = true.
Proof.
  unfold headerLabels. rewrite !existsb_app. intros ->. rewrite orb_true_r. reflexivity.
Qed.

Lemma headerLabels_date (lbl : jsstring) :
  existsb (ciEq lbl) dateLabels = true -> existsb (ciEq lbl) headerLabels = true.
Proof.
  unfold headerLabels. rewrite !existsb_app. intros ->. rewrite !orb_true_r. reflexivity.
Qed.

(** A header label followed by whitespace only, up to the end of the
    input: the pattern of the label matches, its capture is empty, and no
    header pattern captures a non-empty value. *)
Lemma header_blank (label : regex) (lbl ws : jsstring) :
  (forall w a g g', lang true label w a g g' -> existsb (ciEq w) headerLabels = true) ->
  existsb (ciEq lbl) headerLabels = true ->
  forallb isSpace ws = true ->
  normalize (lbl ++ ws) = lbl ++ ws
  /\ captured (str_match (headerRe label) (lbl ++ ws)) = None.
Proof.
  intros Hsound Hl Hws.
  destruct (headerLabels_shape lbl Hl) as [(b & -> & Hb) Hlt]. split.
  - apply normalize_plain. intros K. apply in_app_or in K. destruct K as [K|K]; [tauto|].
    exact (blank_no lt_ ws eq_refl Hws K).
  - destruct (captured (str_match (headerRe label) ((b ++ [colon]) ++ ws))) as [raw|] eqn:E;
      [exfalso|reflexivity].
    pose proof (captured_headOk _ _ _ E) as Hh.
    apply captured_exec in E. destruct E as (Hne & pre & u & y & Hs & Hy & Hg).
    destruct (header_sound _ _ _ Hy) as (lbl' & ws' & raw0 & post & Hu & [g Ll] & _ & _ & _ & Hg').
    assert (raw0 = raw) by congruence. subst raw0.
    apply Hsound in Ll. destruct (headerLabels_shape lbl' Ll) as [(b' & -> & _) _].
    subst u. rewrite <- !app_assoc in Hs. cbn [app] in Hs.
    rewrite (app_assoc pre b') in Hs. symmetry in Hs.
    apply split_at_unique in Hs; [|exact Hb|exact (blank_no colon ws eq_refl Hws)].
    destruct Hs as [_ Hs]. destruct raw as [|c raw]; [now elim Hne|].
    cbn [headOk] in Hh. rewrite forallb_forall in Hws.
    rewrite (Hws c) in Hh; [simpl in Hh; discriminate|].
    rewrite <- Hs. apply in_or_app. right. left. reflexivity.
Qed.

Lemma header_blank_match (label : regex) (lbl ws : jsstring) :
  (forall a g, lang true label lbl a g g) ->
  forallb isSpace ws = true ->
  captured (str_match (headerRe label) (lbl ++ ws)) = None ->
  exists m, str_match (headerRe label) (lbl ++ ws) = Some m /\ capture m = Some [].
Proof.
  intros Hl Hws Hc.
  destruct (header_complete label lbl ws [] [] None) as [y Hy]; auto.
  cbn [app] in Hy. rewrite app_nil_r in Hy.
  destruct (str_match_found _ _ _ _ (suffix_refl (lbl ++ ws)) Hy) as [m Hm].
  exists m. split; [exact Hm|]. rewrite Hm in Hc.
  apply str_match_Some in Hm. destruct Hm as (pre & u & y' & _ & Hy' & -> & _).
  destruct (header_sound _ _ _ Hy') as (l0 & w0 & raw & p0 & _ & _ & _ & _ & _ & Hg).
  unfold captured in Hc. cbn [capture] in *. rewrite Hg in *.
  destruct raw as [|c raw]; [reflexivity|simpl in Hc; discriminate].
Qed.

(** The guard of a transaction field, on the result of the search. *)
Lemma field_guard (re : RegExp) (html : jsstring) :
  field re html
  = match str_match re html with
    | Some m => match capture m with
                | Some (c :: raw) => clean (c :: raw)
                | _ => NA
                end
    | None => NA
    end.
Proof.
  unfold field, captured. destruct (str_match re html) as [m|]; [|reflexivity].
  destruct (capture m) as [[|c raw]|]; reflexivity.
Qed.

(** * The properties C1 to C10 *)

(** C1 (as amended).  Presence of a header field follows the truthiness of
    the captured text, not the success of the match: when the pattern
    matches with an empty capture the field stays unset, and when the
    capture is non-empty the field is set to the value built from it.  The
    whitespace after the label is skipped before the capture starts: a
    non-empty capture never starts with whitespace, and where only
    whitespace follows the label up to the end of the input the pattern
    matches with an empty capture and the field stays unset.  A set field
    can still be the empty string: such is the value built from a capture
    of markup only, as for [Date: <b>]. *)
Theorem header_presence_by_truthiness (content : jsstring) :
  (forall m, str_match fromRe (normalize content) = Some m ->
     (capture m = Some [] -> from (parseForwardedMail content) = None)
     /\ (forall raw, capture m = Some raw -> raw <> [] ->
            from (parseForwardedMail content) = Some (senderOf raw)))
  /\ (forall m, str_match subjectRe (normalize content) = Some m ->
     (capture m = Some [] -> subject (parseForwardedMail content) = None)
     /\ (forall raw, capture m = Some raw -> raw <> [] ->
            subject (parseForwardedMail content) = Some (stripTrim raw)))
  /\ (forall m, str_match dateRe (normalize content) = Some m ->
     (capture m = Some [] -> date (parseForwardedMail content) = None)
     /\ (forall raw, capture m = Some raw -> raw <> [] ->
            date (parseForwardedMail content) = Some (stripTrim raw)))
  /\ (forall raw,
        captured (str_match fromRe (normalize content)) = Some raw
        \/ captured (str_match subjectRe (normalize content)) = Some raw
        \/ captured (str_match dateRe (normalize content)) = Some raw ->
        exists c r, raw = c :: r /\ isSpace c = false)
  /\ (forall lbl ws,
        forallb isSpace ws = true ->
        (existsb (ciEq lbl) fromLabels = true ->
           (exists m, str_match fromRe (normalize (lbl ++ ws)) = Some m
                      /\ capture m = Some [])
           /\ from (parseForwardedMail (lbl ++ ws)) = None)
        /\ (existsb (ciEq lbl) subjectLabels = true ->
           (exists m, str_match subjectRe (normalize (lbl ++ ws)) = Some m
                      /\ capture m = Some [])
           /\ subject (parseForwardedMail (lbl ++ ws)) = None)
        /\ (existsb (ciEq lbl) dateLabels = true ->
           (exists m, str_match dateRe (normalize (lbl ++ ws)) = Some m
                      /\ capture m = Some [])
           /\ date (parseForwardedMail (lbl ++ ws)) = None))
  /\ date (parseForwardedMail (str "Date: <b>")) = Some [].
Proof.
  split; [|split; [|split; [|split; [|split]]]].
  - unfold parseForwardedMail. cbn [from]. intros m Hm. apply presence. exact Hm.
  - unfold parseForwardedMail. cbn [subject]. intros m Hm. apply presence. exact Hm.
  - unfold parseForwardedMail. cbn [date]. intros m Hm. apply presence. exact Hm.
  - intros raw H.
    assert (Hh : headOk raw = true /\ raw <> []).
    { destruct H as [H|[H|H]].
      - split; [exact (captured_headOk fromLabel _ _ H)|apply (captured_Some _ _ _ H)].
      - split; [exact (captured_headOk subjectLabel _ _ H)|apply (captured_Some _ _ _ H)].
      - split; [exact (captured_headOk dateLabel _ _ H)|apply (captured_Some _ _ _ H)]. }
    destruct Hh as [Hh Hne]. destruct raw as [|c r]; [now elim Hne|].
    exists c, r. split; [reflexivity|]. cbn [headOk] in Hh.
    destruct (isSpace c); [discriminate|reflexivity].
  - intros lbl ws Hws. split; [|split]; intros Hl.
    + destruct (header_blank fromLabel lbl ws) as [Hn Hc];
        [intros w a g g' L; eapply headerLabels_from, fromLabel_sound, L
        |apply headerLabels_from, Hl|exact Hws|].
      unfold parseForwardedMail. cbv zeta. cbn [from]. rewrite Hn. split.
      * exact (header_blank_match fromLabel lbl ws
                 (fun a g => fromLabel_complete lbl a g Hl) Hws Hc).
      * exact (f_equal (option_map senderOf) Hc).
    + destruct (header_blank subjectLabel lbl ws) as [Hn Hc];
        [intros w a g g' L; eapply headerLabels_subject, subjectLabel_sound, L
        |apply headerLabels_subject, Hl|exact Hws|].
      unfold parseForwardedMail. cbv zeta. cbn [subject]. rewrite Hn. split.
      * exact (header_blank_match subjectLabel lbl ws
                 (fun a g => subjectLabel_complete lbl a g Hl) Hws Hc).
      * exact (f_equal (option_map stripTrim) Hc).
    + destruct (header_blank dateLabel lbl ws) as [Hn Hc];
        [intros w a g g' L; eapply headerLabels_date, dateLabel_sound, L
        |apply headerLabels_date, Hl|exact Hws|].
      unfold parseForwardedMail. cbv zeta. cbn [date]. rewrite Hn. split.
      * exact (header_blank_match dateLabel lbl ws
                 (fun a g => dateLabel_complete lbl a g Hl) Hws Hc).
      * exact (f_equal (option_map stripTrim) Hc).
  - vm_compute. reflexivity.
Qed.

Lemma header_presence_by_truthiness_witness :
  str_match fromRe (normalize (str "Dari: ")) = Some (mkMatch (str "Dari: ") (Some []))
  /\ from (parseForwardedMail (str "Dari: ")) = None
  /\ forallb isSpace (str "  ") = true
  /\ existsb (ciEq (str "SENT:")) dateLabels = true
  /\ date (parseForwardedMail (str "SENT:" ++ str "  ")) = None.
Proof.
  assert (H : str_match fromRe (normalize (str "Dari: "))
              = Some (mkMatch (str "Dari: ") (Some [])))
    by (vm_compute; reflexivity).
  split; [exact H|].
  split; [exact (proj1 (proj1 (header_presence_by_truthiness (str "Dari: ")) _ H) eq_refl)|].
  split; [reflexivity|]. split; [reflexivity|].
  exact (proj2 (proj2 (proj2 (proj1 (proj2 (proj2 (proj2 (proj2
           (header_presence_by_truthiness [])))))
           (str "SENT:") (str "  ") eq_refl)) eq_refl)).
Defined.

(** C1 as stated does not hold: on [From:] the sender pattern matches
    with an empty capture and the sender stays unset. *)
Lemma empty_capture_leaves_sender_unset :
  str_match fromRe (normalize (str "From:")) = Some (mkMatch (str "From:") (Some []))
  /\ from (parseForwardedMail (str "From:")) = None.
Proof. split; vm_compute; reflexivity. Qed.

(** C2 (as amended).  On the example of the specification the first three
    fields are as stated, and the amount stays at the default because no
    stop token follows it; with a line-break tag after the amount all four
    values are extracted. *)
Theorem transaction_example_result :
  parseTransactionDetails transactionExample
  = mkTransactionDetails (str "1234") (str "Starbucks") (str "01/01/2024") NA
  /\ parseTransactionDetails (transactionExample ++ str "<br>")
     = mkTransactionDetails (str "1234") (str "Starbucks") (str "01/01/2024")
                            (str "Rp 50.000").
Proof. split; vm_compute; reflexivity. Qed.

(** C2 as stated does not hold: the amount of the example is the default. *)
Lemma transaction_example_nominal_default :
  nominal (parseTransactionDetails transactionExample) = str "N/A".
Proof. vm_compute. reflexivity. Qed.







(** C5.  A field whose label pattern occurs nowhere in the input, or whose
    whole pattern matches nowhere, keeps its default: ["N/A"] for the four
    transaction fields, unset for the three header fields.  Both extractors
    are total functions, so no input makes them fail; on the empty string
    every field is at its default. *)
Theorem missing_label_default :
  (forall html,
      (occurs kartuLabel html = false \/ str_match kartuRe html = None ->
       akhirKartu (parseTransactionDetails html) = NA)
      /\ (occurs merchantLabel html = false \/ str_match merchantRe html = None ->
           merchant (parseTransactionDetails html) = NA)
      /\ (occurs tanggalLabel html = false \/ str_match tanggalRe html = None ->
           tanggalTransaksi (parseTransactionDetails html) = NA)
      /\ (occurs nominalLabel html = false \/ str_match nominalRe html = None ->
           nominal (parseTransactionDetails html) = NA))
  /\ (forall content,
        (occurs fromLabel content = false
         \/ str_match fromRe (normalize content) = None ->
         from (parseForwardedMail content) = None)
        /\ (occurs subjectLabel content = false
             \/ str_match subjectRe (normalize content) = None ->
             subject (parseForwardedMail content) = None)
        /\ (occurs dateLabel content = false
             \/ str_match dateRe (normalize content) = None ->
             date (parseForwardedMail content) = None))
  /\ parseTransactionDetails [] = mkTransactionDetails NA NA NA NA
  /\ parseForwardedMail [] = mkForwardedMail None None None.
Proof.
  split; [|split; [|split]].
  - intros html. rewrite parseTransactionDetails_fields.
    cbn [akhirKartu merchant tanggalTransaksi nominal].
    split; [|split; [|split]]; (intros [H|H]; [|unfold field; rewrite H; reflexivity]).
    + exact (field_default kartuLabel
               (seqs [Star true CSpace; Opt (lit "&nbsp;"); Star true CSpace;
                      Group (Times4 CDigit)]) html H).
    + exact (field_default merchantLabel
               (seqs [Star true CSpace; Group (Star false CDot); fieldStop]) html H).
    + exact (field_default tanggalLabel
               (seqs [Star true CSpace; Group (Star false CDot); fieldStop]) html H).
    + exact (field_default nominalLabel
               (seqs [Star true CSpace; Group (Star false CDot); fieldStop]) html H).
  - intros content. unfold parseForwardedMail. cbn [from subject date].
    split; [|split]; (intros [H|H]; [|rewrite H; reflexivity]).
    + pose proof (header_default fromLabel
                    (seqs [Star true CSpace; Group (Star false CDot); lineEnd])
                    content eq_refl eq_refl H
                  : captured (str_match fromRe (normalize content)) = None) as K.
      rewrite K. reflexivity.
    + pose proof (header_default subjectLabel
                    (seqs [Star true CSpace; Group (Star false CDot); lineEnd])
                    content eq_refl eq_refl H
                  : captured (str_match subjectRe (normalize content)) = None) as K.
      rewrite K. reflexivity.
    + pose proof (header_default dateLabel
                    (seqs [Star true CSpace; Group (Star false CDot); lineEnd])
                    content eq_refl eq_refl H
                  : captured (str_match dateRe (normalize content)) = None) as K.
      rewrite K. reflexivity.
  - vm_compute. reflexivity.
  - vm_compute. reflexivity.
Qed.

Lemma missing_label_default_witness :
  occurs merchantLabel (str "Saldo Anda: Rp 10.000") = false
  /\ merchant (parseTransactionDetails (str "Saldo Anda: Rp 10.000")) = NA
  /\ occurs fromLabel (str "Saldo Anda: Rp 10.000") = false
  /\ from (parseForwardedMail (str "Saldo Anda: Rp 10.000")) = None.
Proof.
  assert (Hm : occurs merchantLabel (str "Saldo Anda: Rp 10.000") = false)
    by (vm_compute; reflexivity).
  assert (Hf : occurs fromLabel (str "Saldo Anda: Rp 10.000") = false)
    by (vm_compute; reflexivity).
  split; [exact Hm|]. split; [|split; [exact Hf|]].
  - exact (proj1 (proj2 (proj1 missing_label_default (str "Saldo Anda: Rp 10.000")))
             (or_introl Hm)).
  - exact (proj1 (proj1 (proj2 missing_label_default) (str "Saldo Anda: Rp 10.000"))
             (or_introl Hf)).
Defined.

(** C6.  When the captured sender text holds an address-shaped substring,
    the sender is such a substring alone (the leftmost one the pattern
    finds); on the example of the specification the three fields are as
    stated. *)
Theorem sender_email_extracted :
  (forall content raw,
      captured (str_match fromRe (normalize content)) = Some raw ->
      (exists pre e post, raw = pre ++ e ++ post /\ emailShaped e) ->
      exists pre' e' post',
        raw = pre' ++ e' ++ post' /\ emailShaped e'
        /\ from (parseForwardedMail content) = Some e'
        /\ forall pre2 e2 post2,
             raw = pre2 ++ e2 ++ post2 -> emailShaped e2 ->
             (List.length pre' <= List.length pre2)%nat)
  /\ parseForwardedMail forwardedExample
     = mkForwardedMail (Some (str "jane@example.com")) (Some (str "Hello"))
                       (Some (str "Mon, 1 Jan 2024")).
Proof.
  split.
  - intros content raw Hc He. unfold parseForwardedMail. cbn [from]. rewrite Hc.
    destruct (senderOf_email raw He) as (pre' & e' & post' & Hr & Hs & <- & Hleft).
    exists pre', (senderOf raw), post'. auto.
  - vm_compute. reflexivity.
Qed.

Lemma sender_email_extracted_witness :
  captured (str_match fromRe (normalize (str "From: Jane <jane@example.com>")))
  = Some (str "Jane <jane@example.com>")
  /\ emailShaped (str "jane@example.com")
  /\ exists pre' e' post',
       str "Jane <jane@example.com>" = pre' ++ e' ++ post' /\ emailShaped e'
       /\ from (parseForwardedMail (str "From: Jane <jane@example.com>")) = Some e'
       /\ forall pre2 e2 post2,
            str "Jane <jane@example.com>" = pre2 ++ e2 ++ post2 -> emailShaped e2 ->
            (List.length pre' <= List.length pre2)%nat.
Proof.
  assert (Hc : captured (str_match fromRe (normalize (str "From: Jane <jane@example.com>")))
               = Some (str "Jane <jane@example.com>"))
    by (vm_compute; reflexivity).
  assert (He : emailShaped (str "jane@example.com")).
  { exists (str "jane"), (str "example"), (str "com").
    repeat split; try discriminate; try (vm_compute; reflexivity).
    simpl. lia. }
  split; [exact Hc|]. split; [exact He|].
  refine (proj1 sender_email_extracted _ _ Hc _).
  exists (str "Jane <"), (str "jane@example.com"), (str ">").
  split; [vm_compute; reflexivity|exact He].
Defined.

(** C7.  [clean] removes every tag (what lies between a [<] and the first
    [>] after it), then decodes every [&nbsp;] to one space, then trims; it
    decodes no other entity: [&lt;], [&gt;] and [&amp;] are left as they
    are. *)
Theorem clean_refines_spec :
  (forall s, clean s = clean_spec s)
  /\ clean (str "&lt;") = str "&lt;"
  /\ clean (str "&gt;") = str "&gt;"
  /\ clean (str "&amp;") = str "&amp;"
  /\ clean (str "a &lt;b&gt; &amp; c") = str "a &lt;b&gt; &amp; c".
Proof.
  split; [exact clean_eq_spec|].
  repeat split; vm_compute; reflexivity.
Qed.

(** C8.  [clean] is idempotent. *)
Theorem clean_idempotent (s : jsstring) : clean (clean s) = clean s.
Proof.
  set (r := clean s). unfold clean.
  rewrite (notags_fixed (plain []) r (clean_notags s)).
  rewrite (nonbsp_fixed (plain (str " ")) r (clean_nonbsp s)).
  unfold r, clean. apply trim_idem.
Qed.

(** C9.  [escapeMarkdown] puts one backslash before each [_], [*], backtick
    and [[] and copies every other character, in order; the empty string is
    returned as it is. *)
Theorem escapeMarkdown_spec :
  (forall text, escapeMarkdown text = escape_spec text)
  /\ escapeMarkdown [] = [].
Proof.
  split; [|reflexivity]. intros text. unfold escapeMarkdown.
  destruct text as [|c text]; [reflexivity|]. cbn [truthy negb].
  apply escape_correct.
Qed.

(** C10.  In [parseTransactionDetails] the default gives way as soon as the
    raw capture is non-empty, before cleaning: the field is then the cleaned
    capture, which is the empty string for a merchant value made of markup
    only.  The test is on the raw capture of the match: where the pattern
    does not match, or matches with an empty capture, the field keeps the
    default ["N/A"]; where the capture is non-empty the field is the cleaned
    capture, whatever the cleaning leaves of it. *)
Theorem sentinel_suppressed_before_cleaning :
  (forall html raw,
      captured (str_match merchantRe html) = Some raw ->
      merchant (parseTransactionDetails html) = clean raw)
  /\ captured (str_match merchantRe (str "Merchant/ATM: <b><br>")) = Some (str "<b>")
  /\ merchant (parseTransactionDetails (str "Merchant/ATM: <b><br>")) = []
  /\ (forall html,
        (str_match merchantRe html = None ->
           merchant (parseTransactionDetails html) = NA)
        /\ (str_match tanggalRe html = None ->
           tanggalTransaksi (parseTransactionDetails html) = NA)
        /\ (str_match nominalRe html = None ->
           nominal (parseTransactionDetails html) = NA))
  /\ (forall html m,
        (str_match merchantRe html = Some m ->
           (capture m = Some [] -> merchant (parseTransactionDetails html) = NA)
           /\ (forall raw, capture m = Some raw -> raw <> [] ->
                  merchant (parseTransactionDetails html) = clean raw))
        /\ (str_match tanggalRe html = Some m ->
           (capture m = Some [] -> tanggalTransaksi (parseTransactionDetails html) = NA)
           /\ (forall raw, capture m = Some raw -> raw <> [] ->
                  tanggalTransaksi (parseTransactionDetails html) = clean raw))
        /\ (str_match nominalRe html = Some m ->
           (capture m = Some [] -> nominal (parseTransactionDetails html) = NA)
           /\ (forall raw, capture m = Some raw -> raw <> [] ->
                  nominal (parseTransactionDetails html) = clean raw)))
  /\ str_match merchantRe (str "Merchant/ATM:<br>")
     = Some (mkMatch (str "Merchant/ATM:<br") (Some []))
  /\ merchant (parseTransactionDetails (str "Merchant/ATM:<br>")) = str "N/A"
  /\ str_match merchantRe (str "Merchant/ATM: <b><br>")
     = Some (mkMatch (str "Merchant/ATM: <b><br") (Some (str "<b>"))).
Proof.
  split; [|split; [|split; [|split; [|split; [|split; [|split]]]]]].
  - intros html raw H. rewrite parseTransactionDetails_fields. cbn [merchant].
    unfold field. rewrite H. reflexivity.
  - vm_compute. reflexivity.
  - vm_compute. reflexivity.
  - intros html. rewrite parseTransactionDetails_fields.
    cbn [merchant tanggalTransaksi nominal]. rewrite !field_guard.
    repeat split; intros ->; reflexivity.
  - intros html m. rewrite parseTransactionDetails_fields.
    cbn [merchant tanggalTransaksi nominal]. rewrite !field_guard.
    split; [|split]; intros ->; (split; [intros ->; reflexivity|]);
      intros raw -> Hne; (destruct raw as [|c raw]; [now elim Hne|reflexivity]).
  - vm_compute. reflexivity.
  - vm_compute. reflexivity.
  - vm_compute. reflexivity.
Qed.

Lemma sentinel_suppressed_before_cleaning_witness :
  captured (str_match merchantRe (str "Merchant/ATM: <i>x</i></p>")) = Some (str "<i>x</i>")
  /\ merchant (parseTransactionDetails (str "Merchant/ATM: <i>x</i></p>"))
     = clean (str "<i>x</i>")
  /\ str_match nominalRe (str "Nominal: &nbsp;Rp 1<br>")
     = Some (mkMatch (str "Nominal: &nbsp;") (Some []))
  /\ nominal (parseTransactionDetails (str "Nominal: &nbsp;Rp 1<br>")) = str "N/A".
Proof.
  assert (H : captured (str_match merchantRe (str "Merchant/ATM: <i>x</i></p>"))
              = Some (str "<i>x</i>"))
    by (vm_compute; reflexivity).
  assert (K : str_match nominalRe (str "Nominal: &nbsp;Rp 1<br>")
              = Some (mkMatch (str "Nominal: &nbsp;") (Some [])))
    by (vm_compute; reflexivity).
  split; [exact H|].
  split; [exact (proj1 sentinel_suppressed_before_cleaning _ _ H)|].
  split; [exact K|].
  exact (proj1 (proj2 (proj2 (proj1 (proj2 (proj2 (proj2 (proj2
           sentinel_suppressed_before_cleaning)))) _ _)) K) eq_refl).
Defined.

(** * Further properties of [escapeMarkdown] *)

Lemma escapeMarkdown_flat (text : jsstring) : escapeMarkdown text = escape_spec text.
Proof.
  unfold escapeMarkdown. destruct text as [|c text]; [reflexivity|].
  cbn [truthy negb]. apply escape_correct.
Qed.

Lemma escape_spec_cons (c : N) (s : jsstring) :
  escape_spec (c :: s) = (if isSpecial c then [backslash; c] else [c]) ++ escape_spec s.
Proof. reflexivity. Qed.

Lemma escape_head (s : jsstring) (h : N) (t : jsstring) :
  escape_spec s = h :: t -> isSpecial h = false.
Proof.
  destruct s as [|c s]; [discriminate|]. rewrite escape_spec_cons.
  destruct (isSpecial c) eqn:E; simpl; intros H; injection H as <- _;
    [reflexivity|exact E].
Qed.

Lemma unescape_cons2 (c d : N) (s : jsstring) :
  unescapeMarkdown (c :: d :: s)
  = if (c =? backslash) && isSpecial d
    then d :: unescapeMarkdown s
    else c :: unescapeMarkdown (d :: s).
Proof. reflexivity. Qed.

Lemma unescape_escape (s : jsstring) : unescapeMarkdown (escape_spec s) = s.
Proof.
  induction s as [|c s IH]; [reflexivity|]. rewrite escape_spec_cons.
  destruct (isSpecial c) eqn:E.
  - cbn [app]. rewrite unescape_cons2, N.eqb_refl, E. cbn [andb]. now rewrite IH.
  - cbn [app]. destruct (escape_spec s) as [|h t] eqn:Es.
    + simpl in IH. subst s. reflexivity.
    + rewrite unescape_cons2, (escape_head s h t Es), andb_false_r. now rewrite IH.
Qed.

(** X1.  Escaping loses nothing: [unescapeMarkdown] reads an escaped text
    back, so two texts with the same escaped form are equal. *)
Theorem escapeMarkdown_injective :
  (forall s, unescapeMarkdown (escapeMarkdown s) = s)
  /\ (forall a b, escapeMarkdown a = escapeMarkdown b -> a = b).
Proof.
  assert (H : forall s, unescapeMarkdown (escapeMarkdown s) = s)
    by (intros s; rewrite escapeMarkdown_flat; apply unescape_escape).
  split; [exact H|]. intros a b E.
  rewrite <- (H a), <- (H b), E. reflexivity.
Qed.

Lemma escapeMarkdown_injective_witness :
  escapeMarkdown (str "a_b") = escapeMarkdown (str "a_b") /\ str "a_b" = str "a_b".
Proof.
  split; [reflexivity|].
  exact (proj2 escapeMarkdown_injective (str "a_b") (str "a_b") eq_refl).
Defined.

(** X2.  Escaping goes piece by piece: the escaped form of a concatenation
    is the concatenation of the escaped forms. *)
Theorem escapeMarkdown_app (a b : jsstring) :
  escapeMarkdown (a ++ b) = escapeMarkdown a ++ escapeMarkdown b.
Proof.
  rewrite !escapeMarkdown_flat. unfold escape_spec. apply flat_map_app.
Qed.

Lemma escape_preceded (s : jsstring) :
  forall pre c post,
    escape_spec s = pre ++ c :: post -> isSpecial c = true ->
    exists pre', pre = pre' ++ [backslash].
Proof.
  induction s as [|d s IH]; intros pre c post H Hc.
  - destruct pre; discriminate.
  - rewrite escape_spec_cons in H. destruct (isSpecial d) eqn:Ed; cbn [app] in H.
    + destruct pre as [|x [|y pre]]; cbn [app] in H.
      * injection H as <- _. discriminate.
      * injection H as <- <- _. exists []. reflexivity.
      * injection H as <- <- H. destruct (IH pre c post H Hc) as [pre' ->].
        exists (backslash :: d :: pre'). reflexivity.
    + destruct pre as [|x pre]; cbn [app] in H.
      * injection H as <- _. congruence.
      * injection H as <- H. destruct (IH pre c post H Hc) as [pre' ->].
        exists (d :: pre'). reflexivity.
Qed.

(** X3.  In the escaped text each [_], [*], backtick and [[] stands right
    after a backslash. *)
Theorem escapeMarkdown_specials_preceded (s pre post : jsstring) (c : N) :
  escapeMarkdown s = pre ++ c :: post -> isSpecial c = true ->
  exists pre', pre = pre' ++ [backslash].
Proof. rewrite escapeMarkdown_flat. apply escape_preceded. Qed.

Lemma escapeMarkdown_specials_preceded_witness :
  escapeMarkdown (str "a*b") = str "a\" ++ chr "*" :: str "b"
  /\ isSpecial (chr "*") = true
  /\ exists pre', str "a\" = pre' ++ [backslash].
Proof.
  assert (H : escapeMarkdown (str "a*b") = str "a\" ++ chr "*" :: str "b")
    by (vm_compute; reflexivity).
  split; [exact H|]. split; [reflexivity|].
  exact (escapeMarkdown_specials_preceded (str "a*b") (str "a\") (str "b") (chr "*") H eq_refl).
Defined.

Lemma escape_length (s : jsstring) :
  List.length (escape_spec s) = (List.length s + List.length (filter isSpecial s))%nat.
Proof.
  induction s as [|c s IH]; [reflexivity|]. rewrite escape_spec_cons, length_app, IH.
  cbn [filter]. destruct (isSpecial c); simpl; lia.
Qed.

Lemma escape_plain (s : jsstring) : filter isSpecial s = [] -> escape_spec s = s.
Proof.
  induction s as [|c s IH]; [reflexivity|]. rewrite escape_spec_cons. cbn [filter].
  destruct (isSpecial c); [discriminate|]. intros H. simpl. now rewrite IH.
Qed.

(** X4.  The escaped text is longer than the text by the number of [_],
    [*], backtick and [[] in it, and a text is returned as it is exactly
    when it holds none of them. *)
Theorem escapeMarkdown_length (s : jsstring) :
  List.length (escapeMarkdown s)
  = (List.length s + List.length (filter isSpecial s))%nat
  /\ (escapeMarkdown s = s <-> filter isSpecial s = []).
Proof.
  rewrite escapeMarkdown_flat. split; [apply escape_length|]. split.
  - intros H. pose proof (escape_length s) as L. rewrite H in L.
    destruct (filter isSpecial s); [reflexivity|simpl in L; lia].
  - apply escape_plain.
Qed.

(** * Further properties of [clean] *)

Lemma afterGt_Some (u r : jsstring) : afterGt u = Some r -> exists b, u = b ++ gt_ :: r.
Proof.
  induction u as [|c u IH]; simpl; [discriminate|].
  destruct (N.eqb_spec c gt_) as [->|_].
  - intros H. injection H as <-. exists []. reflexivity.
  - intros H. destruct (IH H) as [b ->]. exists (c :: b). reflexivity.
Qed.

Lemma afterGt_found (b c : jsstring) : exists r, afterGt (b ++ gt_ :: c) = Some r.
Proof.
  induction b as [|x b IH]; simpl.
  - eauto.
  - destruct (x =? gt_); eauto.
Qed.

Lemma notags_iff (s : jsstring) :
  notags s <-> forall a b c, s <> a ++ lt_ :: b ++ gt_ :: c.
Proof.
  split.
  - intros H a b c ->. specialize (H (lt_ :: b ++ gt_ :: c) (ex_intro _ a eq_refl)).
    cbn [tagAt] in H. rewrite N.eqb_refl in H.
    destruct (afterGt_found b c) as [r Hr]. congruence.
  - intros H u [pre ->]. destruct (tagAt u) as [r|] eqn:E; [exfalso|reflexivity].
    destruct u as [|x u]; [discriminate|]. cbn [tagAt] in E.
    destruct (N.eqb_spec x lt_) as [->|_]; [|discriminate].
    apply afterGt_Some in E. destruct E as [b ->]. exact (H pre b r eq_refl).
Qed.

Lemma nonbsp_iff (s : jsstring) : nonbsp s <-> forall a c, s <> a ++ nbsp ++ c.
Proof.
  split.
  - intros H a c ->. specialize (H (nbsp ++ c) (ex_intro _ a eq_refl)).
    rewrite startsWith_app in H. discriminate.
  - intros H u [pre ->]. destruct (startsWith nbsp u) as [r|] eqn:E; [exfalso|reflexivity].
    apply startsWith_Some in E. subst u. exact (H pre r eq_refl).
Qed.

Lemma trim_headOk (s : jsstring) : headOk (trim s) = true /\ headOk (rev (trim s)) = true.
Proof.
  unfold trim, trimEnd. set (A := trimStart s). set (B := trimStart (rev A)).
  split.
  - destruct (trimStart_suffix (rev A)) as [pre H]. fold B in H.
    apply (f_equal (@rev N)) in H. rewrite rev_involutive, rev_app_distr in H.
    apply (headOk_app (rev B) (rev pre)). rewrite <- H. apply trimStart_headOk.
  - rewrite rev_involutive. apply trimStart_headOk.
Qed.

Lemma trim_fixed (s : jsstring) : headOk s = true -> headOk (rev s) = true -> trim s = s.
Proof.
  intros H1 H2. unfold trim, trimEnd.
  rewrite (headOk_trimStart s H1), (headOk_trimStart (rev s) H2). apply rev_involutive.
Qed.

Lemma clean_isClean (s : jsstring) : isClean (clean s).
Proof.
  split; [apply notags_iff, clean_notags|].
  split; [apply nonbsp_iff, clean_nonbsp|]. unfold clean. apply trim_headOk.
Qed.

Lemma isClean_fixed (s : jsstring) : isClean s -> clean s = s.
Proof.
  intros (H1 & H2 & H3 & H4). unfold clean.
  rewrite (notags_fixed _ s (proj2 (notags_iff s) H1)).
  rewrite (nonbsp_fixed _ s (proj2 (nonbsp_iff s) H2)).
  apply trim_fixed; assumption.
Qed.

(** X5.  The result of [clean] holds no tag (no [<] with a [>] after it)
    and no [&nbsp;], and neither starts nor ends with whitespace, whatever
    the text. *)
Theorem clean_output_is_clean (s : jsstring) : isClean (clean s).
Proof. apply clean_isClean. Qed.

(** X6.  [clean] returns a text as it is exactly when the text holds no
    tag and no [&nbsp;] and neither starts nor ends with whitespace. *)
Theorem clean_fixed_points (s : jsstring) : clean s = s <-> isClean s.
Proof.
  split; [|apply isClean_fixed]. intros H. rewrite <- H. apply clean_isClean.
Qed.

Lemma trim_In (c : N) (s : jsstring) : In c (trim s) -> In c s.
Proof.
  intros H. destruct (trim_factor s) as (pre & q & E). rewrite E.
  apply in_or_app. right. apply in_or_app. left. exact H.
Qed.

Lemma trim_length (s : jsstring) : (List.length (trim s) <= List.length s)%nat.
Proof.
  destruct (trim_factor s) as (pre & q & E). rewrite E at 2.
  rewrite !length_app. lia.
Qed.

Lemma replace_all_length (re : RegExp) (r s : jsstring) :
  nonempty_matches re -> (List.length r <= 1)%nat ->
  (List.length (replace_all re (plain r) s) <= List.length s)%nat.
Proof.
  intros Hne Hr. pattern s, (replace_all re (plain r) s).
  apply replace_all_ind; [exact Hne|..].
  - simpl. lia.
  - intros c s' _ IH. simpl. lia.
  - intros s' y w _ -> Hw _ IH. rewrite expand_plain, !length_app.
    destruct w; [now elim Hw|]. simpl. lia.
Qed.

Lemma clean_In (c : N) (s : jsstring) : In c (clean s) -> In c s \/ c = chr " ".
Proof.
  unfold clean. intros H. apply trim_In in H.
  apply (replace_all_In nbspRe (str " ") nbspRe_nonempty) in H.
  destruct H as [H|[<-|[]]]; [|right; reflexivity].
  apply (replace_all_In tagRe [] tagRe_nonempty) in H.
  destruct H as [H|[]]. left. exact H.
Qed.

(** X7.  [clean] never lengthens a text, and every character of the result
    is a character of the text or a space. *)
Theorem clean_shrinks (s : jsstring) :
  (List.length (clean s) <= List.length s)%nat
  /\ forall c, In c (clean s) -> In c s \/ c = chr " ".
Proof.
  split; [|intros c; apply clean_In]. unfold clean.
  eapply Nat.le_trans; [apply trim_length|].
  eapply Nat.le_trans; [apply replace_all_length; [exact nbspRe_nonempty|simpl; lia]|].
  apply replace_all_length; [exact tagRe_nonempty|simpl; lia].
Qed.

(** * Further properties of [parseTransactionDetails] *)

(** The lazy repetition stops at the first place the continuation accepts. *)
Lemma starLazy_first (ci : bool) (k : cclass) (kont : cont) (s : jsstring) :
  forall tk g z,
    starLazy ci k kont s tk g = Some z ->
    exists w a,
      s = w ++ a /\ forallb (cmatch ci k) w = true
      /\ kont (MState a (rev w ++ tk) g) = Some z
      /\ forall w1 w2, w = w1 ++ w2 -> w2 <> [] ->
                       kont (MState (w2 ++ a) (rev w1 ++ tk) g) = None.
Proof.
  induction s as [|ch s IH]; intros tk g z H; simpl in H;
    apply orElse_Some in H; destruct H as [H | [Hn H]]; try discriminate.
  - exists [], []. repeat split; auto.
    intros w1 w2 E. symmetry in E. apply app_eq_nil in E. tauto.
  - exists [], (ch :: s). repeat split; auto.
    intros w1 w2 E. symmetry in E. apply app_eq_nil in E. tauto.
  - destruct (cmatch ci k ch) eqn:Ec; [|discriminate].
    apply IH in H. destruct H as (w & a & -> & Hw & Hk & Hmin).
    exists (ch :: w), a. split; [reflexivity|]. split; [simpl; now rewrite Ec|].
    split; [simpl; rewrite <- app_assoc; exact Hk|].
    intros [|c1 w1] w2 E Hne; simpl in E.
    + subst w2. exact Hn.
    + injection E as <- E. simpl. rewrite <- app_assoc. apply (Hmin w1 w2 E Hne).
Qed.

Lemma ciPrefix_split (t u : jsstring) :
  ciPrefix t u = true -> exists w a, u = w ++ a /\ ciEq w t = true.
Proof.
  revert u. induction t as [|c t IH]; intros u H.
  - exists [], u. auto.
  - destruct u as [|d u]; [discriminate|]. simpl in H.
    apply andb_true_iff in H. destruct H as [Hd H].
    destruct (IH u H) as (w & a & -> & Hw). exists (d :: w), a.
    simpl. rewrite Hd, Hw. auto.
Qed.

Lemma ciEq_ciPrefix (w t a : jsstring) : ciEq w t = true -> ciPrefix t (w ++ a) = true.
Proof.
  revert w. induction t as [|c t IH]; intros w H; [reflexivity|].
  destruct w as [|d w]; [discriminate|]. simpl in *.
  apply andb_true_iff in H. destruct H as [-> H]. simpl. auto.
Qed.

Lemma stopAt_lang (u : jsstring) (g : option jsstring) :
  stopAt u = true -> exists t a, u = t ++ a /\ lang true fieldStop t a g g.
Proof.
  unfold stopAt, stopTokens, fieldStop, lit. cbn [existsb alts]. rewrite orb_false_r.
  intros H.
  repeat (apply orb_true_iff in H; destruct H as [H|H]);
    apply ciPrefix_split in H; destruct H as (w & a & -> & Hw);
    exists w, a; (split; [reflexivity|]).
  - apply L_AltL, lits_lang, Hw.
  - apply L_AltR, L_AltL, lits_lang, Hw.
  - apply L_AltR, L_AltR, L_AltL, lits_lang, Hw.
  - apply L_AltR, L_AltR, L_AltR. apply (lits_lang [LF]), Hw.
Qed.

Lemma lang_stopAt (t a : jsstring) (g g' : option jsstring) :
  lang true fieldStop t a g g' -> stopAt (t ++ a) = true.
Proof.
  unfold stopAt, stopTokens, fieldStop, lit. cbn [existsb alts]. intros L.
  apply lang_Alt_inv in L. destruct L as [L|L].
  { apply lang_lits in L. rewrite (ciEq_ciPrefix _ _ a L). reflexivity. }
  apply lang_Alt_inv in L. destruct L as [L|L].
  { apply lang_lits in L. rewrite (ciEq_ciPrefix _ _ a L). apply orb_true_iff. right. reflexivity. }
  apply lang_Alt_inv in L. destruct L as [L|L].
  { apply lang_lits in L. rewrite (ciEq_ciPrefix _ _ a L). rewrite !orb_true_r. reflexivity. }
  apply (lang_lits [LF]) in L. rewrite (ciEq_ciPrefix _ _ a L). rewrite !orb_true_r. reflexivity.
Qed.

(** A free-text field capture: it holds no line terminator, a stop token
    follows it, and none starts inside it. *)
Lemma field_sound (label : regex) (u : jsstring) (y : mstate) :
  exec_at (fieldRe label) u = Some y ->
  exists skipped raw post,
    u = skipped ++ raw ++ post
    /\ group1 y = Some raw
    /\ forallb notTerminator raw = true
    /\ stopAt post = true
    /\ forall a b, raw = a ++ b -> b <> [] -> stopAt (b ++ post) = false.
Proof.
  unfold exec_at. cbn [fieldRe source ignoreCase seqs]. intros H.
  rewrite matcher_Seq in H. apply matcher_sound in H.
  destruct H as (w1 & a1 & g1 & Hu & _ & H). cbn [rest taken group1] in Hu, H.
  rewrite matcher_Seq in H. cbn [matcher rest taken group1] in H.
  apply starGreedy_sound in H. destruct H as (w2 & a2 & -> & _ & H).
  cbn [rest taken group1] in H.
  apply starLazy_first in H. destruct H as (raw & post & -> & Hraw & Hk & Hmin).
  cbn [rest taken] in Hk. apply matcher_sound in Hk.
  destruct Hk as (t & a & g' & Hpost & Lt & Hy). cbn [rest taken group1] in Hpost, Lt, Hy.
  pose proof (lang_groupFree _ _ _ _ _ _ Lt eq_refl) as Hg. subst g'.
  injection Hy as <-. cbn [group1].
  exists (w1 ++ w2), raw, post. repeat split.
  - rewrite Hu, <- app_assoc. reflexivity.
  - rewrite app_nil_r, rev_involutive. reflexivity.
  - exact Hraw.
  - rewrite Hpost. eapply lang_stopAt, Lt.
  - intros x b E Hb. destruct (stopAt (b ++ post)) eqn:Es; [exfalso|reflexivity].
    specialize (Hmin x b E Hb). cbn [rest taken] in Hmin.
    destruct (stopAt_lang _ (Some (rev (rev x ++ []))) Es) as (t' & a' & Eb & Lt').
    destruct (matcher_complete true fieldStop t' a' _ _ Lt' (fun y => Some y)
                ((rev x ++ []) ++ rev w2 ++ rev w1 ++ []) _ eq_refl) as [z' Hz'].
    rewrite <- Eb in Hz'. rewrite Hz' in Hmin. discriminate.
Qed.

Lemma kartu_sound (u : jsstring) (y : mstate) :
  exec_at kartuRe u = Some y ->
  exists d1 d2 d3 d4,
    group1 y = Some [d1; d2; d3; d4]
    /\ isDigit d1 = true /\ isDigit d2 = true /\ isDigit d3 = true /\ isDigit d4 = true.
Proof.
  intros E. apply exec_at_sound in E. destruct E as (w & _ & _ & L).
  cbn [kartuRe source ignoreCase seqs] in L. unfold Times4 in L.
  apply lang_Seq_inv in L. destruct L as (w1 & r1 & g1 & _ & _ & L).
  apply lang_Seq_inv in L. destruct L as (w2 & r2 & g2 & _ & _ & L).
  apply lang_Seq_inv in L. destruct L as (w3 & r3 & g3 & _ & _ & L).
  apply lang_Seq_inv in L. destruct L as (w4 & r4 & g4 & _ & _ & L).
  apply lang_Group_inv in L. destruct L as [[g0 L] ->].
  apply lang_Seq_inv in L. destruct L as (x1 & s1 & h1 & -> & L1 & L).
  apply lang_Seq_inv in L. destruct L as (x2 & s2 & h2 & -> & L2 & L).
  apply lang_Seq_inv in L. destruct L as (x3 & x4 & h3 & -> & L3 & L4).
  apply lang_Char_inv in L1. destruct L1 as (d1 & -> & H1 & _).
  apply lang_Char_inv in L2. destruct L2 as (d2 & -> & H2 & _).
  apply lang_Char_inv in L3. destruct L3 as (d3 & -> & H3 & _).
  apply lang_Char_inv in L4. destruct L4 as (d4 & -> & H4 & _).
  exists d1, d2, d3, d4. auto.
Qed.

Lemma kartu_value (html : jsstring) :
  field kartuRe html = NA
  \/ exists d1 d2 d3 d4,
       field kartuRe html = [d1; d2; d3; d4]
       /\ isDigit d1 = true /\ isDigit d2 = true /\ isDigit d3 = true /\ isDigit d4 = true.
Proof.
  unfold field. destruct (captured (str_match kartuRe html)) as [raw|] eqn:E; [right|left; reflexivity].
  apply captured_exec in E. destruct E as (_ & pre & u & y & _ & Hy & Hg).
  destruct (kartu_sound u y Hy) as (d1 & d2 & d3 & d4 & Hd & H1 & H2 & H3 & H4).
  assert (raw = [d1; d2; d3; d4]) by congruence. subst raw.
  exists d1, d2, d3, d4. repeat split; auto.
  apply clean_plain. simpl. rewrite !digit_plain by assumption. reflexivity.
Qed.

(** X8.  The card suffix returned by [parseTransactionDetails] is the
    default ["N/A"] or exactly four decimal digits, whatever the input. *)
Theorem akhirKartu_default_or_four_digits (html : jsstring) :
  akhirKartu (parseTransactionDetails html) = NA
  \/ (List.length (akhirKartu (parseTransactionDetails html)) = 4%nat
      /\ forallb isDigit (akhirKartu (parseTransactionDetails html)) = true).
Proof.
  rewrite parseTransactionDetails_fields. cbn [akhirKartu].
  destruct (kartu_value html) as [H|(d1 & d2 & d3 & d4 & -> & H1 & H2 & H3 & H4)];
    [left; exact H|right].
  split; [reflexivity|]. simpl. now rewrite H1, H2, H3, H4.
Qed.

Lemma digit_notTerminator (d : N) : isDigit d = true -> notTerminator d = true.
Proof.
  intros H. apply digit_not_space in H. unfold isSpace in H.
  apply orb_false_iff in H. destruct H as [_ H]. unfold notTerminator. now rewrite H.
Qed.

Lemma isClean_of_fixed (v : jsstring) : clean v = v -> isClean v.
Proof. intros <-. apply clean_isClean. Qed.

Lemma clean_notTerminator (raw : jsstring) :
  forallb notTerminator raw = true -> forallb notTerminator (clean raw) = true.
Proof.
  rewrite !forallb_forall. intros H c Hc. apply clean_In in Hc.
  destruct Hc as [Hc| ->]; [apply H, Hc|reflexivity].
Qed.

Lemma text_field_value (label : regex) (html : jsstring) :
  singleLineClean (field (fieldRe label) html).
Proof.
  unfold field.
  destruct (captured (str_match (fieldRe label) html)) as [raw|] eqn:E.
  - apply captured_exec in E. destruct E as (_ & pre & u & y & _ & Hy & Hg).
    destruct (field_sound label u y Hy) as (sk & raw0 & post & _ & Hg0 & Hraw & _).
    assert (raw0 = raw) by congruence. subst raw0.
    split; [apply clean_isClean|apply clean_notTerminator, Hraw].
  - split; [apply isClean_of_fixed|]; vm_compute; reflexivity.
Qed.

Lemma fields_singleLineClean (html : jsstring) :
  singleLineClean (akhirKartu (parseTransactionDetails html))
  /\ singleLineClean (merchant (parseTransactionDetails html))
  /\ singleLineClean (tanggalTransaksi (parseTransactionDetails html))
  /\ singleLineClean (nominal (parseTransactionDetails html)).
Proof.
  rewrite parseTransactionDetails_fields.
  cbn [akhirKartu merchant tanggalTransaksi nominal].
  split; [|split; [exact (text_field_value merchantLabel html)
                  |split; [exact (text_field_value tanggalLabel html)
                          |exact (text_field_value nominalLabel html)]]].
  destruct (kartu_value html) as [->|(d1 & d2 & d3 & d4 & -> & H1 & H2 & H3 & H4)].
  - split; [apply isClean_of_fixed|]; vm_compute; reflexivity.
  - split.
    + apply isClean_of_fixed, clean_plain. simpl.
      rewrite !digit_plain by assumption. reflexivity.
    + simpl. rewrite !digit_notTerminator by assumption. reflexivity.
Qed.

(** X9.  Every field returned by [parseTransactionDetails] is clean (no
    tag, no [&nbsp;], no whitespace at either end) and holds no line
    terminator, whatever the input. *)
Theorem transaction_fields_single_line_clean (html : jsstring) :
  singleLineClean (akhirKartu (parseTransactionDetails html))
  /\ singleLineClean (merchant (parseTransactionDetails html))
  /\ singleLineClean (tanggalTransaksi (parseTransactionDetails html))
  /\ singleLineClean (nominal (parseTransactionDetails html)).
Proof. apply fields_singleLineClean. Qed.

Lemma text_field_first_stop (label : regex) (html raw : jsstring) :
  captured (str_match (fieldRe label) html) = Some raw ->
  endsAtFirstStop html raw /\ field (fieldRe label) html = clean raw.
Proof.
  intros E. split; [|unfold field; now rewrite E].
  apply captured_exec in E. destruct E as (_ & pre & u & y & -> & Hy & Hg).
  destruct (field_sound label u y Hy) as (sk & raw0 & post & -> & Hg0 & _ & Hpost & Hmin).
  assert (raw0 = raw) by congruence. subst raw0.
  exists (pre ++ sk), post. split; [now rewrite <- app_assoc|]. auto.
Qed.

(** X10.  A merchant, date or amount value ends at the first stop token
    ([<br], [</p>], [&nbsp;] in any letter case, or a newline) after its
    start: the captured text is followed by a stop token and none starts
    inside it; the field is the cleaned capture. *)
Theorem text_fields_end_at_first_stop (html raw : jsstring) :
  (captured (str_match merchantRe html) = Some raw ->
   endsAtFirstStop html raw /\ merchant (parseTransactionDetails html) = clean raw)
  /\ (captured (str_match tanggalRe html) = Some raw ->
      endsAtFirstStop html raw
      /\ tanggalTransaksi (parseTransactionDetails html) = clean raw)
  /\ (captured (str_match nominalRe html) = Some raw ->
      endsAtFirstStop html raw /\ nominal (parseTransactionDetails html) = clean raw).
Proof.
  rewrite parseTransactionDetails_fields. cbn [merchant tanggalTransaksi nominal].
  split; [|split].
  - exact (text_field_first_stop merchantLabel html raw).
  - exact (text_field_first_stop tanggalLabel html raw).
  - exact (text_field_first_stop nominalLabel html raw).
Qed.

Lemma text_fields_end_at_first_stop_witness :
  captured (str_match merchantRe (str "Merchant/ATM: Kopi &amp; Teh&nbsp;<br>"))
  = Some (str "Kopi &amp; Teh")
  /\ endsAtFirstStop (str "Merchant/ATM: Kopi &amp; Teh&nbsp;<br>") (str "Kopi &amp; Teh")
  /\ merchant (parseTransactionDetails (str "Merchant/ATM: Kopi &amp; Teh&nbsp;<br>"))
     = clean (str "Kopi &amp; Teh").
Proof.
  assert (H : captured (str_match merchantRe (str "Merchant/ATM: Kopi &amp; Teh&nbsp;<br>"))
              = Some (str "Kopi &amp; Teh"))
    by (vm_compute; reflexivity).
  split; [exact H|].
  exact (proj1 (text_fields_end_at_first_stop _ _) H).
Defined.

(** * Further properties of [parseForwardedMail] *)

Lemma header_capture_line (label : regex) (n raw : jsstring) :
  captured (str_match (headerRe label) n) = Some raw ->
  forallb notTerminator raw = true.
Proof.
  intros E. apply captured_exec in E. destruct E as (_ & pre & u & y & _ & Hy & Hg).
  destruct (header_sound label u y Hy) as (lbl & ws & raw0 & post & _ & _ & _ & Hraw & _ & Hg0).
  assert (raw0 = raw) by congruence. subst raw0. exact Hraw.
Qed.

Lemma stripTrim_In (c : N) (raw : jsstring) : In c (stripTrim raw) -> In c raw.
Proof.
  unfold stripTrim. intros H. apply trim_In in H.
  apply (replace_all_In tagRe [] tagRe_nonempty) in H. destruct H as [H|[]]. exact H.
Qed.

Lemma stripTrim_shape (raw : jsstring) : trimmedNoTag (stripTrim raw).
Proof.
  unfold stripTrim. split; [|apply trim_headOk].
  apply notags_iff.
  destruct (trim_factor (replace_all tagRe (plain []) raw)) as (pre & q & H).
  apply (notags_factor pre _ q). rewrite <- H. apply notags_strip.
Qed.

Lemma ltRe_nonempty : nonempty_matches ltRe.
Proof. apply consumes_nonempty. reflexivity. Qed.

Lemma gtRe_nonempty : nonempty_matches gtRe.
Proof. apply consumes_nonempty. reflexivity. Qed.

Lemma ampRe_nonempty : nonempty_matches ampRe.
Proof. apply consumes_nonempty. reflexivity. Qed.

Lemma senderOf_line (raw : jsstring) :
  forallb notTerminator raw = true -> forallb notTerminator (senderOf raw) = true.
Proof.
  rewrite !forallb_forall. intros H c Hc. unfold senderOf in Hc.
  destruct (str_match emailRe raw) as [m|] eqn:E.
  - apply str_match_Some in E. destruct E as (pre & u & y & -> & Hy & -> & _).
    destruct (exec_at_sound _ _ _ Hy) as (w & -> & _ & L).
    apply email_sound in L. destruct L as [_ Hg]. cbn [capture] in Hc.
    rewrite Hg in Hc. apply H. apply in_or_app. right. apply in_or_app. left. exact Hc.
  - apply (replace_all_In ampRe (str "&") ampRe_nonempty) in Hc.
    destruct Hc as [Hc|[<-|[]]]; [|reflexivity].
    apply (replace_all_In gtRe (str ">") gtRe_nonempty) in Hc.
    destruct Hc as [Hc|[<-|[]]]; [|reflexivity].
    apply (replace_all_In ltRe (str "<") ltRe_nonempty) in Hc.
    destruct Hc as [Hc|[<-|[]]]; [|reflexivity].
    apply trim_In in Hc.
    apply (replace_all_In spacesRe (str " ") spacesRe_nonempty) in Hc.
    destruct Hc as [Hc|[<-|[]]]; [|reflexivity].
    apply (replace_all_In tagRe (str " ") tagRe_nonempty) in Hc.
    destruct Hc as [Hc|[<-|[]]]; [|reflexivity].
    apply H, Hc.
Qed.

(** X11.  A header field that is set holds no line terminator; a subject
    or date that is set holds no tag either and neither starts nor ends with
    whitespace. *)
Theorem header_values_single_line (content v : jsstring) :
  (from (parseForwardedMail content) = Some v -> forallb notTerminator v = true)
  /\ (subject (parseForwardedMail content) = Some v ->
      forallb notTerminator v = true /\ trimmedNoTag v)
  /\ (date (parseForwardedMail content) = Some v ->
      forallb notTerminator v = true /\ trimmedNoTag v).
Proof.
  unfold parseForwardedMail. cbn [from subject date].
  split; [|split].
  - destruct (captured (str_match fromRe (normalize content))) as [raw|] eqn:E;
      [|discriminate].
    intros H. injection H as <-.
    apply senderOf_line, (header_capture_line fromLabel _ _ E).
  - destruct (captured (str_match subjectRe (normalize content))) as [raw|] eqn:E;
      [|discriminate].
    intros H. injection H as <-. split; [|apply stripTrim_shape].
    pose proof (header_capture_line subjectLabel _ _ E) as Hr.
    rewrite forallb_forall in *. intros c Hc. apply Hr, stripTrim_In, Hc.
  - destruct (captured (str_match dateRe (normalize content))) as [raw|] eqn:E;
      [|discriminate].
    intros H. injection H as <-. split; [|apply stripTrim_shape].
    pose proof (header_capture_line dateLabel _ _ E) as Hr.
    rewrite forallb_forall in *. intros c Hc. apply Hr, stripTrim_In, Hc.
Qed.

Lemma header_values_single_line_witness :
  subject (parseForwardedMail (str "Subject:  <b>Tagihan</b> Anda ")) = Some (str "Tagihan Anda")
  /\ forallb notTerminator (str "Tagihan Anda") = true
  /\ trimmedNoTag (str "Tagihan Anda").
Proof.
  assert (H : subject (parseForwardedMail (str "Subject:  <b>Tagihan</b> Anda "))
              = Some (str "Tagihan Anda"))
    by (vm_compute; reflexivity).
  split; [exact H|].
  exact (proj1 (proj2 (header_values_single_line _ _)) H).
Defined.

Lemma lits_run (p : jsstring) :
  forall w kont s tk g,
    ciEq w p = true ->
    matcher true (lits p) kont (MState (w ++ s) tk g) = kont (MState s (rev w ++ tk) g).
Proof.
  induction p as [|c p IH]; intros w kont s tk g H.
  - destruct w; [reflexivity|discriminate].
  - destruct w as [|d w]; [discriminate|]. simpl in H.
    apply andb_true_iff in H. destruct H as [Hd Hw]. rewrite N.eqb_sym in Hd.
    destruct p as [|c' p'].
    + destruct w; [|discriminate]. cbn [lits matcher app]. unfold step1.
      cbn [rest taken group1 cmatch]. rewrite Hd. reflexivity.
    + change (lits (c :: c' :: p')) with (Seq (Char (CLit c)) (lits (c' :: p'))).
      rewrite matcher_Seq. cbn [matcher app]. unfold step1 at 1.
      cbn [rest taken group1 cmatch]. rewrite Hd, (IH w kont s (d :: tk) g Hw).
      cbn [rev]. rewrite <- app_assoc. reflexivity.
Qed.

Lemma starGreedy_run (ci : bool) (k : cclass) (kont : cont) (ws : jsstring) :
  forall c s tk g z,
    forallb (cmatch ci k) ws = true -> cmatch ci k c = false ->
    kont (MState (c :: s) (rev ws ++ tk) g) = Some z ->
    starGreedy ci k kont (ws ++ c :: s) tk g = Some z.
Proof.
  induction ws as [|d ws IH]; intros c s tk g z Hws Hc Hk.
  - cbn [app]. rewrite starGreedy_stop by exact Hc. exact Hk.
  - simpl in Hws. apply andb_true_iff in Hws. destruct Hws as [Hd Hws].
    cbn [app starGreedy]. rewrite Hd.
    rewrite (IH c s (d :: tk) g z Hws Hc); [reflexivity|].
    simpl in Hk. rewrite <- app_assoc in Hk. exact Hk.
Qed.

(** At a line-break tag the pattern matches the tag and nothing more. *)
Lemma br_hit (t b : jsstring) :
  brTag t -> exists y, exec_at brRe (t ++ b) = Some y /\ rest y = b /\ taken y <> [].
Proof.
  intros (lbl & ws & sl & -> & Hl & Hws & Hsl).
  unfold exec_at. cbn [brRe source ignoreCase seqs]. unfold lit.
  rewrite matcher_Seq, <- !app_assoc, (lits_run _ lbl _ _ _ _ Hl).
  rewrite matcher_Seq. cbn [matcher rest taken group1 Opt C].
  destruct Hsl as [-> | ->]; cbn [app].
  - eexists. split; [apply starGreedy_run; [exact Hws|reflexivity|]|].
    + unfold orElse, step1. cbn [rest taken group1 cmatch]. reflexivity.
    + cbn [rest taken]. split; [reflexivity|discriminate].
  - eexists. split; [apply starGreedy_run; [exact Hws|reflexivity|]|].
    + unfold orElse, step1. cbn [rest taken group1 cmatch]. reflexivity.
    + cbn [rest taken]. split; [reflexivity|discriminate].
Qed.

Lemma normalize_tag (t b : jsstring) : brTag t -> normalize (t ++ b) = LF :: normalize b.
Proof.
  intros Ht. destruct (br_hit t b Ht) as (y & Hy & Hr & Hne).
  unfold normalize. rewrite (replace_all_hit _ _ _ _ Hy Hne), expand_plain, Hr.
  reflexivity.
Qed.

(** X12.  Text free of [<] is left as it is by the normalization; after
    such text a line-break tag ([<br>], [<BR/>], [<br />], ...) is rewritten
    to one newline and normalization goes on after it; the extracted header
    is the one of the same text with a newline in place of the tag. *)
Theorem line_break_tag_is_newline (a t b : jsstring) :
  ~ In lt_ a -> brTag t ->
  normalize a = a
  /\ normalize (a ++ t ++ b) = a ++ LF :: normalize b
  /\ parseForwardedMail (a ++ t ++ b) = parseForwardedMail (a ++ LF :: b).
Proof.
  intros Ha Ht.
  assert (H0 : normalize a = a).
  { pose proof (normalize_copy a [] Ha) as K. rewrite app_nil_r in K. rewrite K.
    unfold normalize. rewrite (replace_all_empty _ _ brRe_nonempty). apply app_nil_r. }
  split; [exact H0|].
  assert (H1 : normalize (a ++ t ++ b) = a ++ LF :: normalize b)
    by (rewrite (normalize_copy a _ Ha), (normalize_tag t b Ht); reflexivity).
  assert (H2 : normalize (a ++ LF :: b) = a ++ LF :: normalize b).
  { rewrite (normalize_copy a _ Ha). change (LF :: b) with ([LF] ++ b).
    rewrite (normalize_copy [LF] b); [reflexivity|].
    intros [K|[]]. discriminate. }
  split; [exact H1|]. unfold parseForwardedMail. rewrite H1, H2. reflexivity.
Qed.

Lemma line_break_tag_is_newline_witness :
  normalize (str "From: a@b.co") = str "From: a@b.co"
  /\ normalize (str "From: a@b.co" ++ str "<BR />" ++ str "Subject: Hi")
     = str "From: a@b.co" ++ LF :: normalize (str "Subject: Hi")
  /\ parseForwardedMail (str "From: a@b.co" ++ str "<BR />" ++ str "Subject: Hi")
     = parseForwardedMail (str "From: a@b.co" ++ LF :: str "Subject: Hi").
Proof.
  apply line_break_tag_is_newline.
  - intros H. vm_compute in H. intuition discriminate.
  - exists (str "<BR"), (str " "), (str "/"). repeat split. right. reflexivity.
Defined.

(** * Properties of the handler [email] *)

Lemma splitLines_nonempty (s : jsstring) : splitLines s <> [].
Proof.
  destruct s as [|c s]; simpl; [discriminate|].
  destruct (c =? LF); [discriminate|]. destruct (splitLines s); discriminate.
Qed.

Lemma splitLines_app_LF (a b : jsstring) :
  splitLines (a ++ LF :: b) = splitLines a ++ splitLines b.
Proof.
  induction a as [|c a IH]; [reflexivity|]. cbn [app splitLines].
  rewrite IH. destruct (c =? LF); [reflexivity|].
  destruct (splitLines a) as [|l ls] eqn:E; [|reflexivity].
  elim (splitLines_nonempty a E).
Qed.

Lemma splitLines_single (v : jsstring) : ~ In LF v -> splitLines v = [v].
Proof.
  induction v as [|c v IH]; intros H; [reflexivity|]. cbn [splitLines].
  destruct (N.eqb_spec c LF) as [->|_]; [elim H; left; reflexivity|].
  rewrite IH; [reflexivity|]. intros K. apply H. right. exact K.
Qed.

Lemma escapeMarkdown_In (c : N) (s : jsstring) :
  In c (escapeMarkdown s) -> In c s \/ c = backslash.
Proof.
  rewrite escapeMarkdown_flat. unfold escape_spec. rewrite in_flat_map.
  intros (d & Hd & Hc). destruct (isSpecial d).
  - destruct Hc as [<-|[<-|[]]]; [right; reflexivity|left; exact Hd].
  - destruct Hc as [<-|[]]. left. exact Hd.
Qed.

Lemma line_no_LF (label v : jsstring) :
  forallb notTerminator label = true -> forallb notTerminator v = true ->
  ~ In LF (label ++ escapeMarkdown v).
Proof.
  rewrite !forallb_forall. intros Hl Hv H. apply in_app_or in H.
  destruct H as [H|H]; [apply Hl in H; discriminate|].
  apply escapeMarkdown_In in H. destruct H as [H|H]; [|discriminate].
  apply Hv in H. discriminate.
Qed.

Lemma kartu_unescaped (html : jsstring) :
  escapeMarkdown (akhirKartu (parseTransactionDetails html))
  = akhirKartu (parseTransactionDetails html).
Proof.
  rewrite parseTransactionDetails_fields. cbn [akhirKartu].
  destruct (kartu_value html) as [->|(d1 & d2 & d3 & d4 & -> & H1 & H2 & H3 & H4)];
    [vm_compute; reflexivity|].
  rewrite escapeMarkdown_flat. apply escape_plain.
  assert (D : forall d, isDigit d = true -> isSpecial d = false).
  { intros d H. unfold isDigit in H. apply andb_true_iff in H. destruct H as [Ha Hb].
    apply N.leb_le in Ha, Hb. unfold isSpecial.
    repeat match goal with
           | |- context [d =? ?b] =>
               destruct (N.eqb_spec d b) as [E|_];
               [exfalso; rewrite E in Ha, Hb; vm_compute in Ha, Hb;
                first [apply Ha; reflexivity | apply Hb; reflexivity]|]
           end.
    reflexivity. }
  simpl. now rewrite !D by assumption.
Qed.

Lemma detailLines_split (td : TransactionDetails) :
  singleLineClean (akhirKartu td) -> singleLineClean (merchant td) ->
  singleLineClean (tanggalTransaksi td) -> singleLineClean (nominal td) ->
  forall front,
    splitLines (front ++ Worker.detailLines td)
    = splitLines front
      ++ [str "*Detail Transaksi:*";
          str "*4 digit Akhir Kartu:* " ++ escapeMarkdown (akhirKartu td);
          str "*Merchant/ATM:* " ++ escapeMarkdown (merchant td);
          str "*Tanggal Transaksi:* " ++ escapeMarkdown (tanggalTransaksi td);
          str "*Nominal:* " ++ escapeMarkdown (nominal td)].
Proof.
  intros [_ H1] [_ H2] [_ H3] [_ H4] front. unfold Worker.detailLines.
  cbn [app]. rewrite splitLines_app_LF. f_equal.
  rewrite splitLines_app_LF.
  rewrite (splitLines_single (str "*Detail Transaksi:*"))
    by (vm_compute; intuition discriminate).
  cbn [app]. f_equal.
  rewrite app_assoc, splitLines_app_LF, splitLines_single
    by (apply line_no_LF; [reflexivity|exact H1]).
  cbn [app]. f_equal.
  rewrite app_assoc, splitLines_app_LF, splitLines_single
    by (apply line_no_LF; [reflexivity|exact H2]).
  cbn [app]. f_equal.
  rewrite app_assoc, splitLines_app_LF, splitLines_single
    by (apply line_no_LF; [reflexivity|exact H3]).
  cbn [app]. f_equal.
  apply splitLines_single, line_no_LF; [reflexivity|exact H4].
Qed.

(** X13.  Whatever the mail, the message handed to [sendToTelegram] ends
    with the same five lines: the title of the transaction block and one
    line per field, each holding its label and the escaped value on that one
    line; the card suffix needs no escaping and is shown as it is. *)
Theorem message_ends_with_detail_block
        (message : PostalMime.Email) (env : Worker.Env) (req : Worker.Request) :
  Worker.email message env = Some req ->
  let td := parseTransactionDetails
              (Worker.or_ (PostalMime.html message)
                          (Worker.or_ (PostalMime.text message) [])) in
  exists front,
    splitLines (Worker.text req)
    = front
      ++ [str "*Detail Transaksi:*";
          str "*4 digit Akhir Kartu:* " ++ akhirKartu td;
          str "*Merchant/ATM:* " ++ escapeMarkdown (merchant td);
          str "*Tanggal Transaksi:* " ++ escapeMarkdown (tanggalTransaksi td);
          str "*Nominal:* " ++ escapeMarkdown (nominal td)].
Proof.
  unfold Worker.email.
  destruct (negb (truthy (Worker.TELEGRAM_BOT_TOKEN env))
            || negb (truthy (Worker.TELEGRAM_CHAT_ID env))); [discriminate|].
  intros H. injection H as <-.
  cbn [Worker.sendToTelegram Worker.text]. unfold Worker.telegramMessage. cbv zeta.
  rewrite app_assoc. eexists. rewrite detailLines_split.
  - rewrite kartu_unescaped. reflexivity.
  - apply fields_singleLineClean.
  - apply fields_singleLineClean.
  - apply fields_singleLineClean.
  - apply fields_singleLineClean.
Qed.

Lemma message_ends_with_detail_block_witness :
  Worker.email mailExample envExample
  = Some (Worker.sendToTelegram (str "123:abc") (str "42")
            (Worker.telegramMessage mailExample))
  /\ exists front,
      splitLines (Worker.telegramMessage mailExample)
      = front
        ++ [str "*Detail Transaksi:*";
            str "*4 digit Akhir Kartu:* 1234";
            str "*Merchant/ATM:* Toko\_A";
            str "*Tanggal Transaksi:* N/A";
            str "*Nominal:* N/A"].
Proof.
  assert (H : Worker.email mailExample envExample
              = Some (Worker.sendToTelegram (str "123:abc") (str "42")
                        (Worker.telegramMessage mailExample)))
    by reflexivity.
  split; [exact H|].
  destruct (message_ends_with_detail_block mailExample envExample _ H) as [front Hf].
  cbn [Worker.sendToTelegram Worker.text] in Hf.
  exists front. rewrite Hf. vm_compute. reflexivity.
Defined.




(** * The fallback of the sender value *)

Lemma spaces_single (s : jsstring) :
  singleSpaced s = true -> replace_all spacesRe (plain (str " ")) s = s.
Proof.
  induction s as [|c s IH]; intros H.
  - apply replace_all_empty, spacesRe_nonempty.
  - cbn [singleSpaced] in H. apply andb_true_iff in H. destruct H as [Hc Hs].
    destruct (isSpace c) eqn:Ec.
    + apply andb_true_iff in Hc. destruct Hc as [Hc Hh]. apply N.eqb_eq in Hc. subst c.
      assert (E : exec_at spacesRe (chr " " :: s) = Some (MState s [chr " "] None)).
      { unfold exec_at. cbn [source ignoreCase spacesRe Plus matcher].
        unfold step1. cbn [rest taken group1 cmatch]. rewrite Ec.
        destruct s as [|d s]; [reflexivity|]. simpl in Hh.
        apply negb_true_iff in Hh. apply starGreedy_stop. exact Hh. }
      rewrite (replace_all_hit _ _ _ _ E) by discriminate.
      cbn [rest taken]. rewrite expand_plain, (IH Hs). reflexivity.
    + rewrite replace_all_miss; [now rewrite (IH Hs)|].
      unfold exec_at. cbn [source ignoreCase spacesRe Plus matcher].
      unfold step1. cbn [rest taken group1 cmatch]. now rewrite Ec.
Qed.

Lemma lits_absent (p : jsstring) (x : N) (t : list ritem) (s : jsstring) :
  ~ In x s -> replace_all (mkRegExp (lits (x :: p)) false) t s = s.
Proof.
  intros H. apply replace_all_id. intros u [pre ->]. rewrite exec_at_lits.
  destruct u as [|c u]; [reflexivity|]. cbn [startsWith].
  destruct (N.eqb_spec x c) as [->|_]; [|reflexivity].
  elim H. apply in_or_app. right. left. reflexivity.
Qed.

Lemma no_lt_notags (s : jsstring) : ~ In lt_ s -> notags s.
Proof.
  intros H u [pre ->]. destruct u as [|c u]; [reflexivity|]. cbn [tagAt].
  destruct (N.eqb_spec c lt_) as [->|_]; [|reflexivity].
  elim H. apply in_or_app. right. left. reflexivity.
Qed.

Lemma email_none_without_at (raw : jsstring) :
  ~ In (chr "@") raw -> str_match emailRe raw = None.
Proof.
  intros H. apply str_match_all_None. intros u [pre ->].
  destruct (exec_at emailRe u) as [y|] eqn:E; [exfalso|reflexivity].
  apply exec_at_sound in E. destruct E as (w & -> & _ & L).
  apply email_sound in L. destruct L as [Hs _]. apply emailShaped_at in Hs.
  apply H. apply in_or_app. right. apply in_or_app. left. exact Hs.
Qed.

Lemma plainName_parts (raw : jsstring) :
  plainName raw = true ->
  ~ In (chr "@") raw /\ ~ In lt_ raw /\ ~ In (chr "&") raw
  /\ singleSpaced raw = true /\ headOk raw = true /\ headOk (rev raw) = true.
Proof.
  unfold plainName. intros H.
  apply andb_true_iff in H. destruct H as [H H4].
  apply andb_true_iff in H. destruct H as [H H3].
  apply andb_true_iff in H. destruct H as [H H2].
  rewrite forallb_forall in H.
  assert (K : forall x, In x raw ->
                        x <> chr "@" /\ x <> lt_ /\ x <> chr "&").
  { intros x Hx. specialize (H x Hx).
    apply andb_true_iff in H. destruct H as [H Hc].
    apply andb_true_iff in H. destruct H as [Ha Hb].
    apply negb_true_iff in Ha, Hb, Hc. apply N.eqb_neq in Ha, Hb, Hc. auto. }
  repeat split; auto; intros Hx; destruct (K _ Hx) as (Ka & Kb & Kc); congruence.
Qed.

(** X15.  A plain display name is the sender value as it is: for a raw
    sender text without [@], [<] and [&] whose only whitespace is single
    spaces between words, the fallback returns the text unchanged. *)
Theorem senderOf_plain_name (raw : jsstring) :
  plainName raw = true -> senderOf raw = raw.
Proof.
  intros H. destruct (plainName_parts raw H) as (Ha & Hl & Hm & Hs & H1 & H2).
  unfold senderOf. rewrite (email_none_without_at raw Ha).
  rewrite (notags_fixed _ raw (no_lt_notags raw Hl)), (spaces_single raw Hs).
  rewrite (trim_fixed raw H1 H2).
  unfold ltRe, gtRe, ampRe, lit.
  change (str "&lt;") with (chr "&" :: str "lt;").
  change (str "&gt;") with (chr "&" :: str "gt;").
  change (str "&amp;") with (chr "&" :: str "amp;").
  rewrite !(lits_absent _ (chr "&") _ raw Hm). reflexivity.
Qed.

Lemma senderOf_plain_name_witness :
  plainName (str "Internal System") = true
  /\ senderOf (str "Internal System") = str "Internal System".
Proof.
  split; [reflexivity|].
  exact (senderOf_plain_name (str "Internal System") eq_refl).
Defined.


